(** * PropertySpecification: identifier registry and shorthand expansion

    A shallow embedding of [Include/Rocket/Core/PropertySpecification.h].
    The header defines the generic id/name table [IdNameMap] in full, the
    two registries built on it, the enumerations [ShorthandType] and
    [ShorthandItemType], the tagged item [ShorthandItemId], and declares
    the members of [PropertySpecification].  The bodies of those members
    live in a translation unit that is not part of the header; they are
    modelled from the written specification and marked as such. *)

From Stdlib Require Import Ascii.
From stdpp Require Import gmap strings list fin_maps.

(** ** Results of code guarded by ROCKET_ASSERT

    A guarded operation either returns or fails an assertion for good. *)

Inductive checked (A : Type) : Type :=
  | Returned (a : A)
  | AssertFailed.

Arguments Returned {A} a.
Arguments AssertFailed {A}.

#[global] Instance checked_ret : MRet checked := λ A a, Returned a.

#[global] Instance checked_bind : MBind checked := λ A B k c,
  match c with
  | Returned a => k a
  | AssertFailed => AssertFailed
  end.

(** Modelled from the spec: the macro ROCKET_ASSERT is defined in another
    header.  The specification treats a failed assertion as a programmer
    error that is not recovered from, so the run ends there. *)
Definition ROCKET_ASSERT (condition : bool) : checked unit :=
  if condition then Returned () else AssertFailed.

(** ** Identifier types

    [IdNameMap] is a template over the enum class used as identifier.  It
    needs three things of it: the enumerator [Invalid], the cast to
    [size_t] and the cast back from [size_t].  The static_assert in the
    constructor is the law [id_Invalid_zero]; casting an id to [size_t]
    and back gives the id again, whatever the width of the enum. *)

Class IdType (ID : Type) `{EqDecision ID} : Type := {
  Invalid : ID;
  id_index : ID → nat;
  id_of_index : nat → ID;
  id_Invalid_zero : id_index Invalid = 0;
  id_of_index_index i : id_of_index (id_index i) = i;
}.

(** The other round trip holds only for sizes that fit the enum: a cast
    from [size_t] that wraps loses it.  An identifier type is unbounded
    when no size wraps. *)
Class IdUnbounded (ID : Type) `{IdType ID} : Prop :=
  id_index_of_index n : id_index (id_of_index n) = n.

(** Modelled from the spec: the enum classes PropertyId and ShorthandId are
    declared in a header that is not part of this file.  The specification
    describes an identifier as a small integer tagged with the space it
    belongs to, dense, with 0 reserved for invalid, and the number of
    names as unbounded; each space is therefore a tagged natural number
    and the casts do not wrap. *)
Inductive PropertyId : Type := PropertyId_of (n : nat).
Inductive ShorthandId : Type := ShorthandId_of (n : nat).

Definition PropertyId_index (id : PropertyId) : nat := let 'PropertyId_of n := id in n.
Definition ShorthandId_index (id : ShorthandId) : nat := let 'ShorthandId_of n := id in n.

#[global] Instance PropertyId_eq_dec : EqDecision PropertyId.
Proof. solve_decision. Defined.
#[global] Instance ShorthandId_eq_dec : EqDecision ShorthandId.
Proof. solve_decision. Defined.

#[global] Instance PropertyId_countable : Countable PropertyId.
Proof. by apply (inj_countable' PropertyId_index PropertyId_of); intros []. Defined.
#[global] Instance ShorthandId_countable : Countable ShorthandId.
Proof. by apply (inj_countable' ShorthandId_index ShorthandId_of); intros []. Defined.

#[global, refine] Instance PropertyId_IdType : IdType PropertyId := {|
  Invalid := PropertyId_of 0;
  id_index := PropertyId_index;
  id_of_index := PropertyId_of |}.
Proof. all: by try intros []. Defined.

#[global, refine] Instance ShorthandId_IdType : IdType ShorthandId := {|
  Invalid := ShorthandId_of 0;
  id_index := ShorthandId_index;
  id_of_index := ShorthandId_of |}.
Proof. all: by try intros []. Defined.

#[global] Instance PropertyId_unbounded : IdUnbounded PropertyId.
Proof. by intros n. Qed.
#[global] Instance ShorthandId_unbounded : IdUnbounded ShorthandId.
Proof. by intros n. Qed.

(** ** IdNameMap *)

Record IdNameMap (ID : Type) : Type := mkIdNameMap {
  name_map : list string;          (* IDs are indices into the name_map *)
  reverse_map : gmap string ID;
}.

Arguments mkIdNameMap {ID} _ _.
Arguments name_map {ID} _.
Arguments reverse_map {ID} _.

Section IdNameMap.
Context {ID : Type} `{IdType ID}.

Implicit Types (m : IdNameMap ID) (id : ID) (name : string).

(** [emplace]: insert unless the key is present; the flag tells whether
    the insertion took place, the id is the one stored afterwards. *)
Definition emplace name id (rm : gmap string ID) : gmap string ID * ID * bool :=
  match rm !! name with
  | Some old => (rm, old, false)
  | None => (<[name := id]> rm, id, true)
  end.

Definition AddPair id name m : checked (IdNameMap ID) :=
  (* Should only be used for defined IDs *)
  ROCKET_ASSERT (id_index id <? length (name_map m));;
  let names := <[id_index id := name]> (name_map m) in
  let '(rm, _, inserted) := emplace name id (reverse_map m) in
  ROCKET_ASSERT inserted;;
  Returned (mkIdNameMap names rm).

(** The constructor: resize the name sequence to the reserved number of
    empty names, then name the invalid id.  Reserving buckets in the
    reverse map changes no content. *)
Definition IdNameMap_new (num_ids_to_reserve : nat) : checked (IdNameMap ID) :=
  AddPair Invalid "invalid" (mkIdNameMap (replicate num_ids_to_reserve "") ∅).

Definition AssertAllInserted (last_property_inserted : ID) m : checked unit :=
  let cnt := length (filter (λ name, name ≠ "") (name_map m)) in
  ROCKET_ASSERT ((cnt =? id_index last_property_inserted)
                 && (size (reverse_map m) =? id_index last_property_inserted)).

Definition GetId name m : ID :=
  match reverse_map m !! name with
  | Some id => id
  | None => Invalid
  end.

(** The result is [None] only where the C++ would index an empty vector. *)
Definition GetName id m : option string :=
  if id_index id <? length (name_map m)
  then name_map m !! id_index id
  else name_map m !! id_index (Invalid : ID).

Definition GetOrCreateId name m : ID * IdNameMap ID :=
  let next_id := id_of_index (length (name_map m)) in
  (* Only insert if not already in list *)
  let '(rm, it, inserted) := emplace name next_id (reverse_map m) in
  let names := if inserted then name_map m ++ [name] else name_map m in
  (* Return the property id that already existed, or the new one if inserted *)
  (it, mkIdNameMap names rm).

(** Repeated calls, as registration issues them. *)
Definition GetOrCreateIds (names : list string) m : IdNameMap ID :=
  foldl (λ m name, (GetOrCreateId name m).2) m names.

(** States that a run of the public operations can produce. *)
Inductive reachable : IdNameMap ID → Prop :=
  | reachable_new n m :
      IdNameMap_new n = Returned m → reachable m
  | reachable_AddPair m id name m' :
      reachable m → AddPair id name m = Returned m' → reachable m'
  | reachable_GetOrCreateId m name :
      reachable m → reachable (GetOrCreateId name m).2.

(** The same, where every [AddPair] names a slot that is still empty and
    no operation is given the empty name. *)
Inductive reachable_fresh_slots : IdNameMap ID → Prop :=
  | fresh_new n m :
      IdNameMap_new n = Returned m → reachable_fresh_slots m
  | fresh_AddPair m id name m' :
      reachable_fresh_slots m →
      name_map m !! id_index id = Some "" → name ≠ "" →
      AddPair id name m = Returned m' → reachable_fresh_slots m'
  | fresh_GetOrCreateId m name :
      reachable_fresh_slots m → name ≠ "" →
      reachable_fresh_slots (GetOrCreateId name m).2.

(** The cases in which the specification has AddPair fail: the id is
    outside the reserved sequence, the slot of the id is already named,
    or the name already maps to another id. *)
Definition AddPair_must_fail id name m : Prop :=
  length (name_map m) ≤ id_index id ∨
  (∃ old, name_map m !! id_index id = Some old ∧ old ≠ "") ∨
  (∃ other, reverse_map m !! name = Some other ∧ other ≠ id).

(** The bijection between named slots and reverse entries. *)
Record registry_inv m : Prop := {
  inv_slot_entry i name :
    name_map m !! i = Some name → name ≠ "" →
    reverse_map m !! name = Some (id_of_index i);
  inv_entry_slot name id :
    reverse_map m !! name = Some id →
    name ≠ "" ∧ name_map m !! id_index id = Some name;
  inv_slot_zero : name_map m !! 0 = Some "invalid";
}.
End IdNameMap.

Definition PropertyIdNameMap (reserve_num_properties : nat) : checked (IdNameMap PropertyId) :=
  IdNameMap_new reserve_num_properties.

(** [NumDefinedIds] is an enumerator of ShorthandId declared outside this
    header; it is an argument here. *)
Definition ShorthandIdNameMap (NumDefinedIds : ShorthandId) (reserve_num_shorthands : nat)
    : checked (IdNameMap ShorthandId) :=
  IdNameMap_new (2 * id_index NumDefinedIds).

(** A registry of four slots: "margin" is given id 1 by AddPair, slot 2
    stays empty and "color" gets the next id from GetOrCreateId. *)
Definition example_registry : IdNameMap PropertyId :=
  mkIdNameMap ["invalid"; "margin"; ""; "color"]
    (<["color" := PropertyId_of 3]>
       (<["margin" := PropertyId_of 1]> {[ "invalid" := PropertyId_of 0 ]})).

(** An identifier type of one bit, to see a cast from [size_t] wrap. *)
Inductive NarrowId : Type := NarrowId_of (bit : bool).

#[global] Instance NarrowId_eq_dec : EqDecision NarrowId.
Proof. solve_decision. Defined.

#[global, refine] Instance NarrowId_IdType : IdType NarrowId := {|
  Invalid := NarrowId_of false;
  id_index := λ '(NarrowId_of bit), if bit then 1 else 0;
  id_of_index := λ n, NarrowId_of (Nat.odd n) |}.
Proof. all: by try intros [[]]. Defined.

(** ** Shorthand types and items *)

Inductive ShorthandType : Type :=
  (* Normal; properties that fail to parse fall-through to the next until
     they parse correctly, and any undeclared are not set. *)
  | FallThrough
  (* A single failed parse will abort, and any undeclared are replicated
     from the last declared property. *)
  | Replicate
  (* For 'padding', 'margin', etc; up to four properties are expected. *)
  | Box
  (* Recursively resolves the full value string on each property, whether
     it is a normal property or another shorthand. *)
  | Recursive.

Inductive ShorthandItemType : Type :=
  | ItemType_Invalid
  | ItemType_Property
  | ItemType_Shorthand.

(** The struct holds a tag and a union of the two id types; the three
    constructors of the struct are the three constructors here. *)
Inductive ShorthandItemId : Type :=
  | Item_Invalid
  | Item_Property (property_id : PropertyId)
  | Item_Shorthand (shorthand_id : ShorthandId).

Definition item_type (item : ShorthandItemId) : ShorthandItemType :=
  match item with
  | Item_Invalid => ItemType_Invalid
  | Item_Property _ => ItemType_Property
  | Item_Shorthand _ => ItemType_Shorthand
  end.

Abbreviation ShorthandItemIdList := (list ShorthandItemId).

#[global] Instance ShorthandType_eq_dec : EqDecision ShorthandType.
Proof. solve_decision. Defined.
#[global] Instance ShorthandItemId_eq_dec : EqDecision ShorthandItemId.
Proof. solve_decision. Defined.

(** ** Splitting strings *)

Definition quote_char : ascii := ascii_of_nat 34.

Definition is_whitespace (c : ascii) : bool :=
  bool_decide (c ∈ [ascii_of_nat 32; ascii_of_nat 9; ascii_of_nat 10; ascii_of_nat 13]).

Definition is_comma (c : ascii) : bool := bool_decide (c = ","%char).

Definition push_char (current : string) (c : ascii) : string :=
  current +:+ String c EmptyString.

(** Empty tokens are dropped. *)
Definition submit (current : string) (rest : list string) : list string :=
  if decide (current = "") then rest else current :: rest.

(** Modelled from the spec: the body of ParsePropertyValues is not in the
    header.  A value string is cut at separators; a separator inside a
    quoted string or inside parentheses does not cut, so such a span stays
    one token.  [depth] counts the open parentheses, [quoted] tells
    whether a quoted string is open, [current] is the token being read. *)
Fixpoint split_top_level (separator : ascii → bool) (depth : nat) (quoted : bool)
    (current : string) (values : string) : list string :=
  match values with
  | EmptyString => submit current []
  | String c rest =>
      if quoted then
        split_top_level separator depth (negb (bool_decide (c = quote_char)))
          (push_char current c) rest
      else if bool_decide (c = quote_char) then
        split_top_level separator depth true (push_char current c) rest
      else if bool_decide (c = "("%char) then
        split_top_level separator (S depth) false (push_char current c) rest
      else if bool_decide (c = ")"%char) then
        split_top_level separator (pred depth) false (push_char current c) rest
      else if (depth =? 0) && separator c then
        submit current (split_top_level separator 0 false "" rest)
      else
        split_top_level separator depth false (push_char current c) rest
  end.

(** Modelled from the spec: with [split_values] the string is cut at
    whitespace, as the shorthand expansions need; without it, at the
    commas of a comma-separated grammar.  A result with no token is a
    failure. *)
Definition ParsePropertyValues (values : string) (split_values : bool)
    : option (list string) :=
  let values_list :=
    split_top_level (if split_values then is_whitespace else is_comma) 0 false "" values in
  if decide (values_list = []) then None else Some values_list.

(** Modelled from the spec: RegisterShorthand splits the list of
    constituent names on commas. *)
Fixpoint split_on_commas (current : string) (names : string) : list string :=
  match names with
  | EmptyString => [current]
  | String c rest =>
      if is_comma c then current :: split_on_commas "" rest
      else split_on_commas (push_char current c) rest
  end.

(** ** Property and shorthand tables *)

(** Modelled from the spec: PropertyDefinition is declared in a header of
    its own.  A definition holds the default value as text, the two flags
    and the attached value-parser, a capability that turns a value string
    into a typed value or fails.  Its identity is its place in the table
    of definitions. *)
Record PropertyDefinition (Value : Type) : Type := mkPropertyDefinition {
  default_value : string;
  inherited : bool;
  forces_layout : bool;
  parser : string → option Value;
}.

Arguments mkPropertyDefinition {Value} _ _ _ _.
Arguments default_value {Value} _.
Arguments inherited {Value} _.
Arguments forces_layout {Value} _.
Arguments parser {Value} _ _.

(** Modelled from the spec: ShorthandDefinition is only declared in the
    header.  A definition holds the ordered items and the resolution
    type; its identity is its place in the table of definitions. *)
Record ShorthandDefinition : Type := mkShorthandDefinition {
  items : ShorthandItemIdList;
  type : ShorthandType;
}.

(** Modelled from the spec: an entry of the output dictionary is a typed
    value with the source file and line it was declared at. *)
Record Property (Value : Type) : Type := mkProperty {
  value : Value;
  source : string;
  source_line_number : Z;
}.

Arguments mkProperty {Value} _ _ _.
Arguments value {Value} _.
Arguments source {Value} _.
Arguments source_line_number {Value} _.

Abbreviation PropertyDictionary Value := (gmap PropertyId (Property Value)).

(** The private members of the class.  The two tables are vectors of
    pointers, null where no definition is stored; the name lists keep the
    order of registration. *)
Record PropertySpecification (Value : Type) : Type := mkPropertySpecification {
  properties : list (option (PropertyDefinition Value));
  shorthands : list (option ShorthandDefinition);
  property_map : IdNameMap PropertyId;
  shorthand_map : IdNameMap ShorthandId;
  property_names : list string;
  inherited_property_names : list string;
}.

Arguments mkPropertySpecification {Value} _ _ _ _ _ _.
Arguments properties {Value} _.
Arguments shorthands {Value} _.
Arguments property_map {Value} _.
Arguments shorthand_map {Value} _.
Arguments property_names {Value} _.
Arguments inherited_property_names {Value} _.

(** [table[index] = x], growing the table when the index is past its end. *)
Definition store_at {A} (index : nat) (x : A) (table : list (option A)) : list (option A) :=
  <[index := Some x]> (table ++ replicate (S index - length table) None).

Section PropertySpecification.
Context {Value : Type}.

Implicit Types (spec : PropertySpecification Value)
  (dictionary : PropertyDictionary Value).

(** Modelled from the spec: the constructor builds the two registries
    and starts with no definition. *)
Definition PropertySpecification_new (NumDefinedIds : ShorthandId)
    (reserve_num_properties reserve_num_shorthands : nat)
    : checked (PropertySpecification Value) :=
  pm ← PropertyIdNameMap reserve_num_properties;
  sm ← ShorthandIdNameMap NumDefinedIds reserve_num_shorthands;
  Returned (mkPropertySpecification [] [] pm sm [] []).

(** Modelled from the spec: the lookups read the table of definitions at
    the index of the id, and go through the registry for a name; an id or
    name without a definition gives no result. *)
Definition GetProperty spec (id : PropertyId) : option (PropertyDefinition Value) :=
  mjoin (properties spec !! id_index id).

Definition GetProperty_by_name spec (property_name : string)
    : option (PropertyDefinition Value) :=
  GetProperty spec (GetId property_name (property_map spec)).

Definition GetShorthand spec (id : ShorthandId) : option ShorthandDefinition :=
  mjoin (shorthands spec !! id_index id).

Definition GetShorthand_by_name spec (shorthand_name : string)
    : option ShorthandDefinition :=
  GetShorthand spec (GetId shorthand_name (shorthand_map spec)).

Definition GetRegisteredProperties spec : list string := property_names spec.

Definition GetRegisteredInheritedProperties spec : list string :=
  inherited_property_names spec.

(** If 'Invalid' then automatically assigns a new id, otherwise assigns
    the given id. *)
Definition assign_id {ID} `{IdType ID} (id : ID) (name : string) (m : IdNameMap ID)
    : checked (ID * IdNameMap ID) :=
  if decide (id = Invalid) then Returned (GetOrCreateId name m)
  else m' ← AddPair id name m; Returned (id, m').

(** Modelled from the spec: RegisterProperty.  Registering a name twice
    is a programmer error found through the reverse map.  The new
    definition has no parser yet; [AddParser] attaches one through the
    handle that the C++ returns. *)
Definition RegisterProperty (property_name default_value : string)
    (inherited forces_layout : bool) (id : PropertyId) spec
    : checked (PropertyId * PropertySpecification Value) :=
  ROCKET_ASSERT (bool_decide (reverse_map (property_map spec) !! property_name = None));;
  '(id, pm) ← assign_id id property_name (property_map spec);
  let definition := mkPropertyDefinition default_value inherited forces_layout (λ _, None) in
  Returned (id,
    mkPropertySpecification
      (store_at (id_index id) definition (properties spec))
      (shorthands spec) pm (shorthand_map spec)
      (property_names spec ++ [property_name])
      (if inherited then inherited_property_names spec ++ [property_name]
       else inherited_property_names spec)).

(** Modelled from the spec: attaching a value-parser to a registered
    definition. *)
Definition AddParser (id : PropertyId) (p : string → option Value) spec
    : PropertySpecification Value :=
  let attach definition :=
    mkPropertyDefinition (default_value definition) (inherited definition)
      (forces_layout definition) p in
  mkPropertySpecification
    (alter (fmap attach) (id_index id) (properties spec))
    (shorthands spec) (property_map spec) (shorthand_map spec)
    (property_names spec) (inherited_property_names spec).

(** Modelled from the spec: a constituent name resolves to a known
    property, or else to a known shorthand. *)
Definition resolve_item spec (name : string) : option ShorthandItemId :=
  match GetProperty_by_name spec name with
  | Some _ => Some (Item_Property (GetId name (property_map spec)))
  | None =>
      match GetShorthand_by_name spec name with
      | Some _ => Some (Item_Shorthand (GetId name (shorthand_map spec)))
      | None => None
      end
  end.

(** Modelled from the spec: RegisterShorthand.  The names are split on
    commas and resolved in order; a name that does not resolve gives
    false and nothing is registered.  Otherwise the id is assigned and
    the definition is stored. *)
Definition RegisterShorthand (shorthand_name property_names_csv : string)
    (type : ShorthandType) (id : ShorthandId) spec
    : checked (bool * PropertySpecification Value) :=
  match mapM (resolve_item spec) (split_on_commas "" property_names_csv) with
  | None => Returned (false, spec)
  | Some items =>
      '(id, sm) ← assign_id id shorthand_name (shorthand_map spec);
      Returned (true,
        mkPropertySpecification
          (properties spec)
          (store_at (id_index id) (mkShorthandDefinition items type) (shorthands spec))
          (property_map spec) sm
          (property_names spec) (inherited_property_names spec))
  end.
End PropertySpecification.

(** ** Shorthand expansion

    Modelled from the spec: the four walks of ParseShorthandDeclaration,
    whose body is not in the header.  [parse_item] parses one token for
    one item into a dictionary, or fails. *)

Section walks.
Context {Value : Type}.
Variable parse_item :
  PropertyDictionary Value → ShorthandItemId → string → option (PropertyDictionary Value).

Implicit Types (dictionary : PropertyDictionary Value)
  (items : ShorthandItemIdList) (tokens : list string).

(** Modelled from the spec: items against tokens one-to-one; a single
    failed parse aborts. *)
Fixpoint parse_one_to_one items tokens dictionary : option (PropertyDictionary Value) :=
  match items, tokens with
  | item :: items, token :: tokens =>
      dictionary ← parse_item dictionary item token;
      parse_one_to_one items tokens dictionary
  | _, _ => Some dictionary
  end.

(** Modelled from the spec: Box.  1 token goes to all four sides; 2
    tokens to (top and bottom, left and right); 4 tokens to top, right,
    bottom, left.  Any other number of tokens is a failure.  The (at most
    four) items are then matched one-to-one against the four sides. *)
Definition Box_sides tokens : option (list string) :=
  match tokens with
  | [every] => Some [every; every; every; every]
  | [vertical; horizontal] => Some [vertical; horizontal; vertical; horizontal]
  | [t; r; b; l] => Some [t; r; b; l]
  | _ => None
  end.

Definition Box_walk items tokens dictionary : option (PropertyDictionary Value) :=
  sides ← Box_sides tokens;
  parse_one_to_one (take 4 items) sides dictionary.

(** Modelled from the spec: what the last parsed item of a Replicate walk
    leaves to be replicated, the value it wrote when it is a property. *)
Definition written dictionary (item : ShorthandItemId) : option (Property Value) :=
  match item with
  | Item_Property id => dictionary !! id
  | _ => None
  end.

(** Modelled from the spec: a remaining property item receives the last
    parsed value; any other remaining item is resolved with the last
    token. *)
Definition replicate_into dictionary (item : ShorthandItemId)
    (last : string * option (Property Value)) : option (PropertyDictionary Value) :=
  match item, last.2 with
  | Item_Property id, Some property => Some (<[id := property]> dictionary)
  | _, _ => parse_item dictionary item last.1
  end.

(** Modelled from the spec: Replicate.  Items take tokens one-to-one and
    a failed parse aborts; when the tokens are used up the remaining items
    are filled from the last parsed one.  Tokens beyond the last item are
    an error, and so is a walk in which nothing was parsed. *)
Fixpoint Replicate_walk items tokens (last : option (string * option (Property Value)))
    dictionary : option (PropertyDictionary Value) :=
  match items with
  | [] => if decide (tokens = []) then Some dictionary else None
  | item :: items =>
      match tokens with
      | token :: tokens =>
          dictionary ← parse_item dictionary item token;
          Replicate_walk items tokens (Some (token, written dictionary item)) dictionary
      | [] =>
          last_parsed ← last;
          dictionary ← replicate_into dictionary item last_parsed;
          Replicate_walk items [] last dictionary
      end
  end.

(** Modelled from the spec: FallThrough.  A token that an item does not
    parse falls through to the next item and the item stays unset; the
    items left when the tokens are used up stay unset.  A token that falls
    through the last item is a failure. *)
Fixpoint FallThrough_walk items tokens dictionary : option (PropertyDictionary Value) :=
  match tokens with
  | [] => Some dictionary
  | token :: rest =>
      match items with
      | [] => None
      | item :: items =>
          match parse_item dictionary item token with
          | Some dictionary => FallThrough_walk items rest dictionary
          | None => FallThrough_walk items tokens dictionary
          end
      end
  end.

(** Modelled from the spec: Recursive.  Every item is resolved against
    the whole value string, and all of them must parse. *)
Fixpoint Recursive_walk items (property_value : string) dictionary
    : option (PropertyDictionary Value) :=
  match items with
  | [] => Some dictionary
  | item :: items =>
      dictionary ← parse_item dictionary item property_value;
      Recursive_walk items property_value dictionary
  end.
End walks.

Section declarations.
Context {Value : Type}.

Implicit Types (spec : PropertySpecification Value)
  (dictionary : PropertyDictionary Value).

(** Modelled from the spec: the typed value that the parser of property
    [id] gives for a token; none when the id has no definition. *)
Definition parse_value spec (id : PropertyId) (token : string) : option Value :=
  definition ← GetProperty spec id;
  parser definition token.

(** Modelled from the spec: the simple property parse.  The parser of
    the property is run on the value string as it is; on success the
    value is written with the source file and line. *)
Definition parse_property spec dictionary (property_id : PropertyId)
    (property_value source_file : string) (source_line_number : Z)
    : option (PropertyDictionary Value) :=
  v ← parse_value spec property_id property_value;
  Some (<[property_id := mkProperty v source_file source_line_number]> dictionary).

(** Modelled from the spec: how one item takes one token.  An item that
    is a property is parsed by that property's parser; an item that is a
    shorthand is expanded in turn, through [nested], with the token
    given to it. *)
Definition parse_item_with
    (nested : PropertyDictionary Value → ShorthandId → string →
              option (PropertyDictionary Value))
    spec (source_file : string) (source_line_number : Z)
    dictionary (item : ShorthandItemId) (token : string)
    : option (PropertyDictionary Value) :=
  match item with
  | Item_Property id =>
      parse_property spec dictionary id token source_file source_line_number
  | Item_Shorthand id => nested dictionary id token
  | Item_Invalid => None
  end.

(** Modelled from the spec: the dispatch on the type of the shorthand.
    Every type but Recursive first splits the value at whitespace. *)
Definition expand
    (parse_item : PropertyDictionary Value → ShorthandItemId → string →
                  option (PropertyDictionary Value))
    spec dictionary (shorthand_id : ShorthandId) (property_value : string)
    : option (PropertyDictionary Value) :=
  definition ← GetShorthand spec shorthand_id;
  match type definition with
  | Recursive =>
      Recursive_walk parse_item (items definition) property_value dictionary
  | FallThrough =>
      tokens ← ParsePropertyValues property_value true;
      FallThrough_walk parse_item (items definition) tokens dictionary
  | Replicate =>
      tokens ← ParsePropertyValues property_value true;
      Replicate_walk parse_item (items definition) tokens None dictionary
  | Box =>
      tokens ← ParsePropertyValues property_value true;
      Box_walk parse_item (items definition) tokens dictionary
  end.

(** Modelled from the spec: the expansion of a shorthand, nested
    shorthands included.  [depth] bounds the nesting of shorthands inside
    shorthands. *)
Fixpoint parse_shorthand (depth : nat) spec dictionary (shorthand_id : ShorthandId)
    (property_value source_file : string) (source_line_number : Z)
    : option (PropertyDictionary Value) :=
  let nested dictionary id token :=
    match depth with
    | 0 => None
    | S depth =>
        parse_shorthand depth spec dictionary id token source_file source_line_number
    end in
  expand (parse_item_with nested spec source_file source_line_number)
    spec dictionary shorthand_id property_value.

(** Modelled from the spec: the members declared in the header write into
    the dictionary they are given and return a flag.  The specification
    keeps no partial write of a failed declaration, so a failure leaves
    the dictionary as it was. *)
Definition committed dictionary (result : option (PropertyDictionary Value))
    : bool * PropertyDictionary Value :=
  match result with
  | Some dictionary => (true, dictionary)
  | None => (false, dictionary)
  end.

(** Modelled from the spec: the declaration of a simple property, by id. *)
Definition ParsePropertyDeclaration spec dictionary (property_id : PropertyId)
    (property_value source_file : string) (source_line_number : Z)
    : bool * PropertyDictionary Value :=
  committed dictionary
    (parse_property spec dictionary property_id property_value
       source_file source_line_number).

(** Modelled from the spec: ParseShorthandDeclaration.  Shorthands refer
    to shorthands registered before them, so the nesting is bounded by the
    number of shorthands. *)
Definition ParseShorthandDeclaration spec dictionary (shorthand_id : ShorthandId)
    (property_value source_file : string) (source_line_number : Z)
    : bool * PropertyDictionary Value :=
  committed dictionary
    (parse_shorthand (length (shorthands spec)) spec dictionary shorthand_id
       property_value source_file source_line_number).

(** Modelled from the spec: parse declaration by name, whether its a
    property or shorthand. *)
Definition ParsePropertyDeclaration_by_name spec dictionary
    (property_name property_value source_file : string) (source_line_number : Z)
    : bool * PropertyDictionary Value :=
  match GetProperty_by_name spec property_name with
  | Some _ =>
      ParsePropertyDeclaration spec dictionary
        (GetId property_name (property_map spec))
        property_value source_file source_line_number
  | None =>
      match GetShorthand_by_name spec property_name with
      | Some _ =>
          ParseShorthandDeclaration spec dictionary
            (GetId property_name (shorthand_map spec))
            property_value source_file source_line_number
      | None => (false, dictionary)
      end
  end.

(** Modelled from the spec: a definition is registered with its default
    as text and gets its parser attached afterwards; the dictionary is
    total over the registered properties after SetPropertyDefaults, and
    the specification's own example registers "color" with default
    "black" and names no parser.  A default that the parser of the
    definition does not read is therefore taken as the text itself: a
    typed value can hold a text that no parser has read. *)
Class Unparsed (Value : Type) : Type := unparsed : string → Value.

(** Modelled from the spec: the entry that the default value of a
    definition gives, the parsed default text, or the text itself where
    the parser of the definition does not read it, with the default
    source arguments of the header. *)
Definition default_property `{!Unparsed Value} (definition : PropertyDefinition Value)
    : Property Value :=
  mkProperty
    (default (unparsed (default_value definition))
       (parser definition (default_value definition)))
    "" 0%Z.

(** Modelled from the spec: SetPropertyDefaults.  Every registered
    property that is not a key of the dictionary gets its default
    inserted.  [index] is the id of the first definition of the table
    that is walked. *)
Fixpoint set_defaults `{!Unparsed Value} (index : nat)
    (table : list (option (PropertyDefinition Value)))
    dictionary : PropertyDictionary Value :=
  match table with
  | [] => dictionary
  | entry :: table =>
      let id : PropertyId := id_of_index index in
      let dictionary :=
        match entry, dictionary !! id with
        | Some definition, None => <[id := default_property definition]> dictionary
        | _, _ => dictionary
        end in
      set_defaults (S index) table dictionary
  end.

(** Modelled from the spec: SetPropertyDefaults walks the whole table. *)
Definition SetPropertyDefaults `{!Unparsed Value} spec dictionary
    : PropertyDictionary Value :=
  set_defaults 0 (properties spec) dictionary.
End declarations.

(** ** Statements about the walks *)

Section outcomes.
Context {Value : Type}.

Implicit Types (spec : PropertySpecification Value)
  (dictionary : PropertyDictionary Value).

(** What a Box declaration must give when the four sides are handed the
    tokens [t], [r], [b] and [l]: when every side parses, the flag is
    true, each side holds its own parsed value and nothing else changed;
    when a side does not parse, the flag is false and nothing changed. *)
Definition Box_outcome spec dictionary (source_file : string) (source_line_number : Z)
    (top right bottom left : PropertyId) (t r b l : string)
    (result : bool * PropertyDictionary Value) : Prop :=
  match parse_value spec top t, parse_value spec right r,
        parse_value spec bottom b, parse_value spec left l with
  | Some vt, Some vr, Some vb, Some vl =>
      result.1 = true ∧
      result.2 !! top = Some (mkProperty vt source_file source_line_number) ∧
      result.2 !! right = Some (mkProperty vr source_file source_line_number) ∧
      result.2 !! bottom = Some (mkProperty vb source_file source_line_number) ∧
      result.2 !! left = Some (mkProperty vl source_file source_line_number) ∧
      ∀ other, other ∉ [top; right; bottom; left] →
        result.2 !! other = dictionary !! other
  | _, _, _, _ => result = (false, dictionary)
  end.

(** Which token each item of a FallThrough walk takes: [Some token] for
    an item that parsed a token, [None] for an item left unset. *)
Fixpoint FallThrough_taken (accepts : PropertyId → string → bool)
    (ids : list PropertyId) (tokens : list string) : list (option string) :=
  match tokens with
  | [] => (λ _, None) <$> ids
  | token :: rest =>
      match ids with
      | [] => []
      | id :: ids =>
          if accepts id token
          then Some token :: FallThrough_taken accepts ids rest
          else None :: FallThrough_taken accepts ids tokens
      end
  end.

(** The tokens that found an item, in their order.  The declaration
    succeeds when these are all the tokens. *)
Definition FallThrough_matched (accepts : PropertyId → string → bool)
    (ids : list PropertyId) (tokens : list string) : list string :=
  omap (λ token : option string, token) (FallThrough_taken accepts ids tokens).

Definition accepts spec (id : PropertyId) (token : string) : bool :=
  bool_decide (is_Some (parse_value spec id token)).
End outcomes.

(** ** A small specification

    Typed values are the accepted keywords themselves. *)

#[global] Instance string_Unparsed : Unparsed string := λ text, text.

Definition keyword (allowed : list string) (token : string) : option string :=
  if decide (token ∈ allowed) then Some token else None.

Definition lengths : string → option string :=
  keyword ["0px"; "1px"; "2px"; "3px"; "4px"; "5px"; "6px"; "7px"].
Definition colours : string → option string :=
  keyword ["black"; "red"; "green"; "blue"].

Definition register (property_name default_value : string) (inherited forces_layout : bool)
    (p : string → option string) (spec : PropertySpecification string)
    : checked (PropertySpecification string) :=
  '(id, spec) ← RegisterProperty property_name default_value inherited forces_layout
                  Invalid spec;
  Returned (AddParser id p spec).

Definition register_shorthand (shorthand_name property_names_csv : string)
    (type : ShorthandType) (spec : PropertySpecification string)
    : checked (PropertySpecification string) :=
  '(_, spec) ← RegisterShorthand shorthand_name property_names_csv type Invalid spec;
  Returned spec.

Definition example_setup : checked (PropertySpecification string) :=
  spec ← PropertySpecification_new (ShorthandId_of 2) 1 0;
  spec ← register "margin-top" "0px" false true lengths spec;
  spec ← register "margin-right" "0px" false true lengths spec;
  spec ← register "margin-bottom" "0px" false true lengths spec;
  spec ← register "margin-left" "0px" false true lengths spec;
  spec ← register "border-top-color" "black" false false colours spec;
  spec ← register "border-right-color" "black" false false colours spec;
  spec ← register "border-bottom-color" "black" false false colours spec;
  spec ← register "border-left-color" "black" false false colours spec;
  spec ← register "font-style" "normal" true true (keyword ["normal"; "italic"]) spec;
  spec ← register "font-weight" "normal" true true (keyword ["normal"; "bold"]) spec;
  spec ← register "color" "black" true false colours spec;
  spec ← register_shorthand "margin"
           "margin-top,margin-right,margin-bottom,margin-left" Box spec;
  spec ← register_shorthand "border-color"
           "border-top-color,border-right-color,border-bottom-color,border-left-color"
           Replicate spec;
  spec ← register_shorthand "font" "font-style,font-weight" FallThrough spec;
  register_shorthand "colors" "border-color,color" Recursive spec.

Definition empty_specification : PropertySpecification string :=
  mkPropertySpecification [] [] (mkIdNameMap [] ∅) (mkIdNameMap [] ∅) [] [].

Definition example_spec : PropertySpecification string :=
  match example_setup with
  | Returned spec => spec
  | AssertFailed => empty_specification
  end.

Definition margin : ShorthandId := GetId "margin" (shorthand_map example_spec).
Definition border_color : ShorthandId := GetId "border-color" (shorthand_map example_spec).
Definition font : ShorthandId := GetId "font" (shorthand_map example_spec).
Definition colors : ShorthandId := GetId "colors" (shorthand_map example_spec).
Definition property (name : string) : PropertyId := GetId name (property_map example_spec).

(** A font shorthand of three items: a weight is a token that both the
    style and the size turn down. *)
Definition text_setup : checked (PropertySpecification string) :=
  spec ← PropertySpecification_new (ShorthandId_of 2) 1 0;
  spec ← register "font-style" "normal" true true (keyword ["normal"; "italic"]) spec;
  spec ← register "font-size" "1px" true true lengths spec;
  spec ← register "font-weight" "normal" true true (keyword ["normal"; "bold"]) spec;
  register_shorthand "font" "font-style,font-size,font-weight" FallThrough spec.

Definition text_spec : PropertySpecification string :=
  match text_setup with
  | Returned spec => spec
  | AssertFailed => empty_specification
  end.

(** The property "color" registered with the default "black" and no
    parser attached. *)
Definition color_setup : checked (PropertyId * PropertySpecification string) :=
  spec ← PropertySpecification_new (ShorthandId_of 2) 1 0;
  RegisterProperty "color" "black" true false Invalid spec.

Definition color_spec : PropertySpecification string :=
  match color_setup with
  | Returned (_, spec) => spec
  | AssertFailed => empty_specification
  end.

(** ** Runs of the registry

    One step is a call that changes the registry: an AddPair that returns,
    or a GetOrCreateId.  The lookups and AssertAllInserted change nothing. *)

Section IdNameMap_runs.
Context {ID : Type} `{IdType ID}.

Implicit Types (m : IdNameMap ID) (id : ID) (name : string).

Inductive registry_step : IdNameMap ID → IdNameMap ID → Prop :=
  | step_AddPair m id name m' :
      AddPair id name m = Returned m' → registry_step m m'
  | step_GetOrCreateId m name :
      registry_step m (GetOrCreateId name m).2.

Definition evolves : IdNameMap ID → IdNameMap ID → Prop := rtc registry_step.

(** The names that AssertAllInserted counts. *)
Definition named_slots m : list string :=
  filter (λ name, name ≠ "") (name_map m).

(** A slot that holds a name has the reverse entry of the name pointing at
    it. *)
Definition slots_have_entries m : Prop :=
  ∀ i name, name_map m !! i = Some name → name ≠ "" →
    reverse_map m !! name = Some (id_of_index i).

(** GetOrCreateId casts the size of the name sequence to the id type
    without a check.  The next id fits when the cast does not wrap: the
    index of the id it gives is the size again. *)
Definition next_id_fits m : Prop :=
  id_index (id_of_index (length (name_map m)) : ID) = length (name_map m).

(** The states of orderly runs: every AddPair names a slot that is still
    empty, no operation is given the empty name, and GetOrCreateId is
    given a new name only while the next id fits. *)
Inductive reachable_orderly : IdNameMap ID → Prop :=
  | orderly_new n m :
      IdNameMap_new n = Returned m → reachable_orderly m
  | orderly_AddPair m id name m' :
      reachable_orderly m →
      name_map m !! id_index id = Some "" → name ≠ "" →
      AddPair id name m = Returned m' → reachable_orderly m'
  | orderly_GetOrCreateId m name :
      reachable_orderly m → name ≠ "" →
      (reverse_map m !! name = None → next_id_fits m) →
      reachable_orderly (GetOrCreateId name m).2.

(** The index of every named slot is the index of an id. *)
Definition named_slots_fit m : Prop :=
  ∀ i name, name_map m !! i = Some name → name ≠ "" →
    id_index (id_of_index i : ID) = i.
End IdNameMap_runs.

(** A one-bit registry of two slots with slot 1 named: an orderly run of
    a narrow identifier type. *)
Definition narrow_registry : IdNameMap NarrowId :=
  mkIdNameMap ["invalid"; "on"]
    (<["on" := NarrowId_of true]> {[ "invalid" := NarrowId_of false ]}).

(** A property registry of three slots as the constructor leaves it; the
    example registry is reached from it. *)
Definition fresh_registry : IdNameMap PropertyId :=
  mkIdNameMap ["invalid"; ""; ""] {[ "invalid" := PropertyId_of 0 ]}.

(** * Properties of the identifier registry *)

Section IdNameMap_facts.
Context {ID : Type} `{IdType ID}.

Implicit Types (m : IdNameMap ID) (id : ID) (name : string).

Lemma AddPair_Returned id name m m' :
  AddPair id name m = Returned m' ↔
    id_index id < length (name_map m) ∧ reverse_map m !! name = None ∧
    m' = mkIdNameMap (<[id_index id := name]> (name_map m))
                     (<[name := id]> (reverse_map m)).
Proof.
  unfold AddPair, emplace, ROCKET_ASSERT.
  destruct (Nat.ltb_spec (id_index id) (length (name_map m))) as [Hlt|Hge];
    destruct (reverse_map m !! name) as [old|] eqn:Hrm; simpl.
  - split; [done | by intros (_ & ? & _)].
  - split; [by intros [= <-] | by intros (_ & _ & ->)].
  - split; [done | intros (? & _); lia].
  - split; [done | intros (? & _); lia].
Qed.

Lemma AddPair_AssertFailed id name m :
  AddPair id name m = AssertFailed ↔
    length (name_map m) ≤ id_index id ∨ is_Some (reverse_map m !! name).
Proof.
  unfold AddPair, emplace, ROCKET_ASSERT.
  destruct (Nat.ltb_spec (id_index id) (length (name_map m))) as [Hlt|Hge];
    destruct (reverse_map m !! name) as [old|] eqn:Hrm; simpl.
  - split; eauto.
  - split; [done | intros [? | [? ?]]; [lia | done]].
  - split; eauto.
  - split; eauto.
Qed.

Lemma IdNameMap_new_Returned n m :
  IdNameMap_new n = Returned m ↔
    0 < n ∧ m = mkIdNameMap (<[0 := "invalid"]> (replicate n "")) {[ "invalid" := Invalid ]}.
Proof.
  unfold IdNameMap_new. rewrite AddPair_Returned; simpl.
  rewrite id_Invalid_zero, length_replicate, lookup_empty, insert_empty.
  split; [by intros (? & _ & ?) | by intros [? ?]].
Qed.

Lemma GetOrCreateId_known name id m :
  reverse_map m !! name = Some id → GetOrCreateId name m = (id, m).
Proof. unfold GetOrCreateId, emplace. intros ->. by destruct m. Qed.

Lemma GetOrCreateId_new name m :
  reverse_map m !! name = None →
  GetOrCreateId name m =
    (id_of_index (length (name_map m)),
     mkIdNameMap (name_map m ++ [name])
                 (<[name := id_of_index (length (name_map m))]> (reverse_map m))).
Proof. unfold GetOrCreateId, emplace. by intros ->. Qed.
End IdNameMap_facts.

Section IdNameMap_invariant.
Context {ID : Type} `{IdType ID, !IdUnbounded ID}.

Implicit Types (m : IdNameMap ID) (id : ID) (name : string).

Lemma id_of_index_zero : id_of_index 0 = (Invalid : ID).
Proof. by rewrite <-(id_Invalid_zero (ID:=ID)), id_of_index_index. Qed.

Lemma registry_inv_new n m : IdNameMap_new n = Returned m → registry_inv m.
Proof.
  intros (Hn & ->)%IdNameMap_new_Returned. split; simpl.
  - intros i name Hi Hname. destruct i as [|i].
    + rewrite list_lookup_insert_eq in Hi by (rewrite length_replicate; lia).
      injection Hi as <-. by rewrite lookup_singleton_eq, id_of_index_zero.
    + rewrite list_lookup_insert_ne in Hi by done.
      apply lookup_replicate in Hi as [-> _]. done.
  - intros name id [<- <-]%lookup_singleton_Some. split; [done|].
    rewrite id_Invalid_zero.
    by rewrite list_lookup_insert_eq by (rewrite length_replicate; lia).
  - by rewrite list_lookup_insert_eq by (rewrite length_replicate; lia).
Qed.

Lemma registry_inv_AddPair id name m m' :
  registry_inv m →
  name_map m !! id_index id = Some "" → name ≠ "" →
  AddPair id name m = Returned m' → registry_inv m'.
Proof.
  intros [Hse Hes H0] Hslot Hname (Hlt & Hnew & ->)%AddPair_Returned.
  split; simpl.
  - intros i name' Hi Hne. destruct (decide (i = id_index id)) as [->|Hi'].
    + rewrite list_lookup_insert_eq in Hi by done. injection Hi as <-.
      by rewrite lookup_insert_eq, id_of_index_index.
    + rewrite list_lookup_insert_ne in Hi by done.
      rewrite lookup_insert_ne; [by apply Hse|].
      intros <-. by rewrite (Hse _ _ Hi Hne) in Hnew.
  - intros name' id' Hl. destruct (decide (name = name')) as [<-|Hne].
    + rewrite lookup_insert_eq in Hl. injection Hl as <-.
      by rewrite list_lookup_insert_eq by done.
    + rewrite lookup_insert_ne in Hl by done.
      destruct (Hes _ _ Hl) as [Hne' Hs]. split; [done|].
      rewrite list_lookup_insert_ne; [done|].
      intros Heq. rewrite Heq, Hs in Hslot. by injection Hslot.
  - rewrite list_lookup_insert_ne; [done|].
    intros Heq. rewrite Heq, H0 in Hslot. by injection Hslot.
Qed.

Lemma registry_inv_GetOrCreateId name m :
  registry_inv m → name ≠ "" → registry_inv (GetOrCreateId name m).2.
Proof.
  intros [Hse Hes H0] Hname.
  destruct (reverse_map m !! name) as [id|] eqn:Hrm.
  { by rewrite (GetOrCreateId_known _ _ _ Hrm). }
  rewrite (GetOrCreateId_new _ _ Hrm). split; simpl.
  - intros i name' Hi Hne.
    apply lookup_app_Some in Hi as [Hi|[Hge Hi]].
    + rewrite lookup_insert_ne; [by apply Hse|].
      intros <-. by rewrite (Hse _ _ Hi Hne) in Hrm.
    + apply list_lookup_singleton_Some in Hi as [Hi <-].
      rewrite lookup_insert_eq. do 2 f_equal. lia.
  - intros name' id' Hl. destruct (decide (name = name')) as [<-|Hne].
    + rewrite lookup_insert_eq in Hl. injection Hl as <-. split; [done|].
      rewrite id_index_of_index. by rewrite lookup_app_r, Nat.sub_diag.
    + rewrite lookup_insert_ne in Hl by done.
      destruct (Hes _ _ Hl) as [Hne' Hs]. split; [done|].
      by apply lookup_app_l_Some.
  - by apply lookup_app_l_Some.
Qed.

(** Whatever the calls, a slot that holds a name has the reverse entry of
    that name pointing at it, and every reverse entry points inside the
    name sequence. *)
Lemma reachable_slot_entry m :
  reachable m →
  (∀ i name, name_map m !! i = Some name → name ≠ "" →
     reverse_map m !! name = Some (id_of_index i)) ∧
  (∀ name id, reverse_map m !! name = Some id → id_index id < length (name_map m)).
Proof.
  induction 1 as [n m Hnew | m id name m' _ [IHs IHe] Hadd | m name _ [IHs IHe]].
  - pose proof (registry_inv_new _ _ Hnew) as [Hse Hes _]. split; [done|].
    intros name id [_ Hslot]%Hes. by eapply lookup_lt_Some.
  - apply AddPair_Returned in Hadd as (Hlt & Hnew & ->). simpl. split.
    + intros i name' Hi Hne. destruct (decide (i = id_index id)) as [->|Hi'].
      * rewrite list_lookup_insert_eq in Hi by done. injection Hi as <-.
        by rewrite lookup_insert_eq, id_of_index_index.
      * rewrite list_lookup_insert_ne in Hi by done.
        rewrite lookup_insert_ne; [by apply IHs|].
        intros <-. by rewrite (IHs _ _ Hi Hne) in Hnew.
    + intros name' id'. rewrite length_insert.
      intros [[_ <-]|[_ Hl]]%lookup_insert_Some; [done | by eapply IHe].
  - destruct (reverse_map m !! name) as [id|] eqn:Hrm.
    { by rewrite (GetOrCreateId_known _ _ _ Hrm). }
    rewrite (GetOrCreateId_new _ _ Hrm). simpl. split.
    + intros i name' Hi Hne. apply lookup_app_Some in Hi as [Hi|[Hge Hi]].
      * rewrite lookup_insert_ne; [by apply IHs|].
        intros <-. by rewrite (IHs _ _ Hi Hne) in Hrm.
      * apply list_lookup_singleton_Some in Hi as [Hi <-].
        rewrite lookup_insert_eq. do 2 f_equal. lia.
    + intros name' id'. rewrite length_app. simpl.
      intros [[_ <-]|[_ Hl]]%lookup_insert_Some.
      * rewrite id_index_of_index. lia.
      * apply IHe in Hl. lia.
Qed.

(** In a registry that satisfies the invariant the reverse map is
    injective: a slot is named by exactly one entry. *)
Lemma registry_inv_entry_unique m name1 name2 id :
  registry_inv m →
  reverse_map m !! name1 = Some id → reverse_map m !! name2 = Some id →
  name1 = name2.
Proof.
  intros [_ Hes _] [_ H1]%Hes [_ H2]%Hes. congruence.
Qed.
End IdNameMap_invariant.

Section IdNameMap_claims.
Context {ID : Type} `{IdType ID, !IdUnbounded ID}.

Implicit Types (m : IdNameMap ID) (id : ID) (name : string).

Lemma GetOrCreateId_dom name m :
  dom (reverse_map (GetOrCreateId name m).2) = {[ name ]} ∪ dom (reverse_map m).
Proof.
  destruct (reverse_map m !! name) as [id|] eqn:Hrm.
  - rewrite (GetOrCreateId_known _ _ _ Hrm); simpl.
    apply (elem_of_dom_2 (D:=gset string)) in Hrm.
    apply set_eq. intros x. rewrite elem_of_union, elem_of_singleton.
    split; [by right | by intros [->|?]].
  - rewrite (GetOrCreateId_new _ _ Hrm); simpl. by rewrite dom_insert_L.
Qed.

Lemma GetOrCreateId_growth name m :
  length (name_map (GetOrCreateId name m).2) + size (reverse_map m) =
  length (name_map m) + size (reverse_map (GetOrCreateId name m).2).
Proof.
  destruct (reverse_map m !! name) as [id|] eqn:Hrm.
  - by rewrite (GetOrCreateId_known _ _ _ Hrm).
  - rewrite (GetOrCreateId_new _ _ Hrm); simpl.
    rewrite length_app, map_size_insert_None by done. simpl. lia.
Qed.

Lemma GetOrCreateIds_dom names m :
  dom (reverse_map (GetOrCreateIds names m)) = list_to_set names ∪ dom (reverse_map m).
Proof.
  revert m. induction names as [|name names IH]; intros m; simpl.
  - by rewrite (left_id_L ∅ (∪)).
  - unfold GetOrCreateIds in *; simpl. rewrite IH, GetOrCreateId_dom.
    apply set_eq. intros x. rewrite !elem_of_union, elem_of_singleton. tauto.
Qed.

Lemma GetOrCreateIds_growth names m :
  length (name_map (GetOrCreateIds names m)) + size (reverse_map m) =
  length (name_map m) + size (reverse_map (GetOrCreateIds names m)).
Proof.
  revert m. induction names as [|name names IH]; intros m; [done|].
  unfold GetOrCreateIds in *; simpl.
  specialize (IH (GetOrCreateId name m).2).
  pose proof (GetOrCreateId_growth name m). lia.
Qed.

(** C4.  GetOrCreateId is idempotent.  From any registry state and for
    any name, a second call with the same name returns the id of the
    first call and leaves the registry as the first call left it; the
    first call adds one reverse entry and one slot when the name is new
    and nothing when it is known.  Over a run of calls the reverse map
    ends with the old keys plus the names asked for, so it grows by the
    number of distinct new names, and the name sequence grows by the
    same amount. *)
Theorem GetOrCreateId_idempotent m name :
  let first := GetOrCreateId name m in
  let second := GetOrCreateId name first.2 in
  let grown := if reverse_map m !! name is Some _ then 0 else 1 in
  second.1 = first.1 ∧ second.2 = first.2 ∧
  reverse_map first.2 !! name = Some first.1 ∧
  size (reverse_map first.2) = size (reverse_map m) + grown ∧
  length (name_map first.2) = length (name_map m) + grown ∧
  ∀ names : list string,
    dom (reverse_map (GetOrCreateIds names m))
      = list_to_set names ∪ dom (reverse_map m) ∧
    length (name_map (GetOrCreateIds names m)) + size (reverse_map m)
      = length (name_map m) + size (reverse_map (GetOrCreateIds names m)).
Proof.
  simpl. destruct (reverse_map m !! name) as [id|] eqn:Hrm.
  - rewrite (GetOrCreateId_known _ _ _ Hrm); simpl.
    rewrite (GetOrCreateId_known _ _ _ Hrm); simpl.
    repeat split; auto using GetOrCreateIds_dom, GetOrCreateIds_growth with lia.
  - rewrite (GetOrCreateId_new _ _ Hrm); simpl.
    rewrite (GetOrCreateId_known name (id_of_index (length (name_map m))))
      by (simpl; apply lookup_insert_eq).
    simpl. rewrite lookup_insert_eq, map_size_insert_None, length_app by done.
    simpl. repeat split; auto using GetOrCreateIds_dom, GetOrCreateIds_growth with lia.
Qed.


(** C6 as amended.  AddPair fails its assertions exactly when the id is
    outside the name sequence or the name is already a key of the
    reverse map, whichever id that key maps to.  Whether the slot of
    the id already holds a name is not looked at.  When AddPair
    returns, the slot of the id holds the name, every other slot is as
    before, the name maps to the id, and every other key of the reverse
    map is as before. *)
Theorem AddPair_assertions id name m :
  (AddPair id name m = AssertFailed ↔
     length (name_map m) ≤ id_index id ∨ is_Some (reverse_map m !! name)) ∧
  ∀ m', AddPair id name m = Returned m' →
    name_map m' !! id_index id = Some name ∧
    length (name_map m') = length (name_map m) ∧
    (∀ i, i ≠ id_index id → name_map m' !! i = name_map m !! i) ∧
    reverse_map m' !! name = Some id ∧
    (∀ x, x ≠ name → reverse_map m' !! x = reverse_map m !! x).
Proof.
  split; [apply AddPair_AssertFailed|].
  intros m' (Hlt & Hnew & ->)%AddPair_Returned; simpl. split_and!.
  - by apply list_lookup_insert_eq.
  - by rewrite length_insert.
  - intros i Hi. by rewrite list_lookup_insert_ne.
  - apply lookup_insert_eq.
  - intros x Hx. by rewrite lookup_insert_ne.
Qed.

(** With an identifier type whose cast does not wrap the next id always
    fits: the runs with fresh slots and non-empty names keep the
    invariant, and they are the orderly runs. *)
Lemma registry_inv_reachable m :
  reachable_fresh_slots m → registry_inv m.
Proof.
  induction 1 as [n m Hnew | m id name m' _ IH Hslot Hname Hadd | m name _ IH Hname].
  - by eapply registry_inv_new.
  - by eapply registry_inv_AddPair.
  - by apply registry_inv_GetOrCreateId.
Qed.

Lemma reachable_fresh_slots_orderly m :
  reachable_fresh_slots m ↔ reachable_orderly m.
Proof.
  split.
  - induction 1 as [n m Hnew | m id name m' _ IH Hslot Hname Hadd | m name _ IH Hname].
    + by eapply orderly_new.
    + by eapply orderly_AddPair.
    + apply orderly_GetOrCreateId; [done..|].
      intros _. apply id_index_of_index.
  - induction 1 as [n m Hnew | m id name m' _ IH Hslot Hname Hadd | m name _ IH Hname _].
    + by eapply fresh_new.
    + by eapply fresh_AddPair.
    + by apply fresh_GetOrCreateId.
Qed.
End IdNameMap_claims.

Section IdNameMap_orderly.
Context {ID : Type} `{IdType ID}.

Implicit Types (m : IdNameMap ID) (id : ID) (name : string).

Lemma registry_inv_GetOrCreateId_fits name m :
  registry_inv m → name ≠ "" →
  (reverse_map m !! name = None → next_id_fits m) →
  registry_inv (GetOrCreateId name m).2.
Proof.
  intros [Hse Hes H0] Hname Hfits.
  destruct (reverse_map m !! name) as [id|] eqn:Hrm.
  { by rewrite (GetOrCreateId_known _ _ _ Hrm). }
  specialize (Hfits eq_refl). unfold next_id_fits in Hfits.
  rewrite (GetOrCreateId_new _ _ Hrm). split; simpl.
  - intros i name' Hi Hne.
    apply lookup_app_Some in Hi as [Hi|[Hge Hi]].
    + rewrite lookup_insert_ne; [by apply Hse|].
      intros <-. by rewrite (Hse _ _ Hi Hne) in Hrm.
    + apply list_lookup_singleton_Some in Hi as [Hi <-].
      rewrite lookup_insert_eq. do 2 f_equal. lia.
  - intros name' id' Hl. destruct (decide (name = name')) as [<-|Hne].
    + rewrite lookup_insert_eq in Hl. injection Hl as <-. split; [done|].
      rewrite Hfits. by rewrite lookup_app_r, Nat.sub_diag.
    + rewrite lookup_insert_ne in Hl by done.
      destruct (Hes _ _ Hl) as [Hne' Hs]. split; [done|].
      by apply lookup_app_l_Some.
  - by apply lookup_app_l_Some.
Qed.

Lemma reachable_orderly_inv m : reachable_orderly m → registry_inv m.
Proof.
  induction 1 as [n m Hnew | m id name m' _ IH Hslot Hname Hadd
                 | m name _ IH Hname Hfits].
  - by eapply registry_inv_new.
  - by eapply registry_inv_AddPair.
  - by apply registry_inv_GetOrCreateId_fits.
Qed.

Lemma reachable_orderly_slots_fit m : reachable_orderly m → named_slots_fit m.
Proof.
  induction 1 as [n m Hnew | m id name m' _ IH Hslot Hname Hadd
                 | m name _ IH Hname Hfits].
  - apply IdNameMap_new_Returned in Hnew as [Hn ->].
    intros i name Hi Hne. simpl in Hi. destruct i as [|i].
    + by rewrite id_of_index_zero, id_Invalid_zero.
    + rewrite list_lookup_insert_ne in Hi by done.
      by apply lookup_replicate in Hi as [-> _].
  - apply AddPair_Returned in Hadd as (Hlt & Hnew & ->).
    intros i name' Hi Hne. simpl in Hi.
    destruct (decide (i = id_index id)) as [->|Hi'].
    + by rewrite id_of_index_index.
    + rewrite list_lookup_insert_ne in Hi by done. by eapply IH.
  - destruct (reverse_map m !! name) as [id|] eqn:Hrm.
    { by rewrite (GetOrCreateId_known _ _ _ Hrm). }
    rewrite (GetOrCreateId_new _ _ Hrm).
    intros i name' Hi Hne. simpl in Hi.
    apply lookup_app_Some in Hi as [Hi|[Hge Hi]]; [by eapply IH|].
    apply list_lookup_singleton_Some in Hi as [Hi <-].
    replace i with (length (name_map m)) by lia. by apply Hfits.
Qed.

Lemma reachable_orderly_reachable m : reachable_orderly m → reachable m.
Proof.
  induction 1 as [n m Hnew | m id name m' _ IH Hslot Hname Hadd
                 | m name _ IH Hname Hfits].
  - by eapply reachable_new.
  - by eapply reachable_AddPair.
  - by apply reachable_GetOrCreateId.
Qed.


(** C7 as amended.  Every state of an orderly run, that is, reached from
    a freshly constructed IdNameMap by AddPair calls that return and name
    a slot that is still empty and by GetOrCreateId calls, all with
    non-empty names, GetOrCreateId being given a new name only while the
    size of the name sequence fits the identifier type, satisfies the
    registry invariant: a non-empty slot has the reverse entry of its
    name pointing at it, a reverse entry has a non-empty name that its
    slot holds, and slot 0 holds "invalid".  The correspondence is one to
    one: no name is held by two slots and no slot is the target of two
    entries.  This holds for every identifier type, of whatever width. *)
Theorem registry_inv_orderly m :
  reachable_orderly m →
  registry_inv m ∧
  (∀ i j name, name_map m !! i = Some name → name_map m !! j = Some name →
     name ≠ "" → i = j) ∧
  (∀ name1 name2 id, reverse_map m !! name1 = Some id →
     reverse_map m !! name2 = Some id → name1 = name2).
Proof.
  intros Hrun.
  pose proof (reachable_orderly_inv m Hrun) as Hinv.
  pose proof (reachable_orderly_slots_fit m Hrun) as Hfit.
  split_and!; [done | |].
  - intros i j name Hi Hj Hname.
    pose proof (inv_slot_entry m Hinv _ _ Hi Hname) as Hli.
    rewrite (inv_slot_entry m Hinv _ _ Hj Hname) in Hli.
    injection Hli as Hij. apply (f_equal id_index) in Hij.
    by rewrite (Hfit _ _ Hi Hname), (Hfit _ _ Hj Hname) in Hij.
  - intros name1 name2 id. by apply registry_inv_entry_unique.
Qed.
End IdNameMap_orderly.

(** C10.  The shorthand registry is built with 2 * NumDefinedIds slots
    whatever reservation the caller asks for: two requests give the same
    registry, and construction fails only when NumDefinedIds is zero.
    The property registry has as many slots as were asked for. *)
Theorem ShorthandIdNameMap_ignores_reservation
    (NumDefinedIds : ShorthandId) (reserve_num_shorthands reserve_num_properties : nat) :
  (∀ other : nat,
     ShorthandIdNameMap NumDefinedIds reserve_num_shorthands
     = ShorthandIdNameMap NumDefinedIds other) ∧
  match ShorthandIdNameMap NumDefinedIds reserve_num_shorthands with
  | Returned m => length (name_map m) = 2 * id_index NumDefinedIds
  | AssertFailed => id_index NumDefinedIds = 0
  end ∧
  match PropertyIdNameMap reserve_num_properties with
  | Returned m => length (name_map m) = reserve_num_properties
  | AssertFailed => reserve_num_properties = 0
  end.
Proof.
  assert (Hnew : ∀ (ID : Type) `{IdType ID} n,
            match IdNameMap_new (ID:=ID) n with
            | Returned m => length (name_map m) = n
            | AssertFailed => n = 0
            end).
  { intros ID ?? n. destruct (IdNameMap_new n) as [m|] eqn:Hm.
    - apply IdNameMap_new_Returned in Hm as [_ ->]; simpl.
      by rewrite length_insert, length_replicate.
    - apply AddPair_AssertFailed in Hm as [Hm|[? Hm]]; simpl in Hm.
      + rewrite length_replicate, id_Invalid_zero in Hm. lia.
      + by rewrite lookup_empty in Hm. }
  unfold ShorthandIdNameMap, PropertyIdNameMap.
  split_and!; [done | |].
  - pose proof (Hnew ShorthandId _ _ (2 * id_index NumDefinedIds)) as Hs.
    destruct (IdNameMap_new (2 * id_index NumDefinedIds)); [done | lia].
  - exact (Hnew PropertyId _ _ reserve_num_properties).
Qed.

(** * Splitting *)

Example split_margin :
  ParsePropertyValues "1px  2px rgb(1, 2) 4px " true = Some ["1px"; "2px"; "rgb(1, 2)"; "4px"].
Proof. reflexivity. Qed.
Example split_blank : ParsePropertyValues "   " true = None.
Proof. reflexivity. Qed.
Example split_names :
  split_on_commas "" "margin-top,margin-right" = ["margin-top"; "margin-right"].
Proof. reflexivity. Qed.

(** A run that names slot 1 twice. *)
Lemma named_slot_run :
  ∃ m0 m1 m2 : IdNameMap PropertyId,
    PropertyIdNameMap 3 = Returned m0 ∧
    AddPair (PropertyId_of 1) "a" m0 = Returned m1 ∧
    name_map m1 !! 1 = Some "a" ∧
    AddPair (PropertyId_of 1) "b" m1 = Returned m2 ∧
    name_map m2 !! 1 = Some "b" ∧
    reverse_map m2 !! "a" = Some (PropertyId_of 1).
Proof.
  do 3 eexists. split_and!; [reflexivity | reflexivity | | reflexivity | |];
    by vm_compute.
Qed.

(** C6, counterexample.  In a registry of three slots where slot 1 was
    named "a", the call AddPair (1, "b") is one that must fail, its slot
    being named already; it returns, slot 1 holds "b" afterwards and the
    reverse map still sends "a" to 1. *)
Lemma AddPair_overwrites_named_slot :
  ∃ m m' : IdNameMap PropertyId,
    AddPair_must_fail (PropertyId_of 1) "b" m ∧
    AddPair (PropertyId_of 1) "b" m = Returned m' ∧
    name_map m !! 1 = Some "a" ∧
    name_map m' !! 1 = Some "b" ∧
    reverse_map m' !! "a" = Some (PropertyId_of 1).
Proof.
  destruct named_slot_run as (m0 & m1 & m2 & _ & _ & H1 & H2 & Hb & Ha).
  exists m1, m2. split_and!; try done.
  right; left. by exists "a".
Qed.

(** C7, counterexample.  The state reached from a fresh registry of three
    slots by AddPair (1, "a") and AddPair (1, "b") is reachable and breaks
    the invariant: the reverse entry of "a" points at a slot that holds
    "b". *)
Lemma reachable_breaks_registry_inv :
  ∃ m : IdNameMap PropertyId, reachable m ∧ ¬ registry_inv m.
Proof.
  destruct named_slot_run as (m0 & m1 & m2 & H0 & H1 & _ & H2 & Hb & Ha).
  exists m2. split.
  - eapply reachable_AddPair; [|exact H2].
    eapply reachable_AddPair; [|exact H1].
    by eapply reachable_new.
  - intros [_ Hes _]. destruct (Hes _ _ Ha) as [_ Hslot]. simpl in Hslot.
    rewrite Hb in Hslot. by injection Hslot.
Qed.

(** What AddPair lets through, AssertAllInserted finds afterwards: when
    the number of named slots differs from the number of reverse entries
    the check fails whatever count it is given, and so it does after
    slot 1 was named twice. *)
Lemma AssertAllInserted_counts {ID} `{IdType ID} (m : IdNameMap ID) (last : ID) :
  length (filter (λ name, name ≠ "") (name_map m)) ≠ size (reverse_map m) →
  AssertAllInserted last m = AssertFailed.
Proof.
  intros Hcount. unfold AssertAllInserted, ROCKET_ASSERT.
  destruct (Nat.eqb_spec (length (filter (λ name, name ≠ "") (name_map m)))
              (id_index last)) as [Hcnt|]; [|done].
  destruct (Nat.eqb_spec (size (reverse_map m)) (id_index last)) as [Hsize|]; [|done].
  congruence.
Qed.

Lemma named_twice_found_by_AssertAllInserted :
  ∃ m0 m1 m2 : IdNameMap PropertyId,
    PropertyIdNameMap 3 = Returned m0 ∧
    AddPair (PropertyId_of 1) "a" m0 = Returned m1 ∧
    AddPair (PropertyId_of 1) "b" m1 = Returned m2 ∧
    ∀ last, AssertAllInserted last m2 = AssertFailed.
Proof.
  do 3 eexists. split_and!; [reflexivity..|].
  intros last. apply AssertAllInserted_counts. by vm_compute.
Qed.


(** The empty name breaks the invariant as well: after GetOrCreateId on
    the empty name the reverse map holds an entry for a slot that counts
    as empty. *)
Lemma empty_name_breaks_registry_inv :
  ∃ m0 : IdNameMap PropertyId,
    PropertyIdNameMap 1 = Returned m0 ∧ ¬ registry_inv (GetOrCreateId "" m0).2.
Proof.
  eexists. split; [reflexivity|].
  intros [_ Hes _]. by destruct (Hes "" (PropertyId_of 1) eq_refl) as [Hne _].
Qed.

(** With an identifier type narrower than [size_t] the cast in
    GetOrCreateId wraps once the sequence has outgrown the type: the new
    name is then mapped to an id that is already in use, here the invalid
    id, and the invariant is lost. *)
Lemma narrow_id_wraps :
  let m0 : IdNameMap NarrowId := mkIdNameMap ["invalid"; ""] {[ "invalid" := Invalid ]} in
  let m1 : IdNameMap NarrowId :=
    mkIdNameMap ["invalid"; ""; "color"]
      (<["color" := Invalid]> {[ "invalid" := Invalid ]}) in
  IdNameMap_new 2 = Returned m0 ∧
  GetOrCreateId "color" m0 = (Invalid, m1) ∧
  reachable_fresh_slots m1 ∧
  ¬ registry_inv m1.
Proof.
  intros m0 m1.
  assert (Hnew : IdNameMap_new 2 = Returned m0) by reflexivity.
  assert (Hcreate : GetOrCreateId "color" m0 = (Invalid, m1)) by reflexivity.
  split_and!; [done | done | |].
  - replace m1 with (GetOrCreateId "color" m0).2 by by rewrite Hcreate.
    apply fresh_GetOrCreateId; [|done]. by apply (fresh_new 2).
  - intros [_ Hes _]. destruct (Hes "color" Invalid) as [_ Hslot].
    + vm_compute. reflexivity.
    + vm_compute in Hslot. discriminate Hslot.
Qed.

Lemma example_registry_reachable : reachable_fresh_slots example_registry.
Proof.
  pose (m0 := mkIdNameMap ["invalid"; ""; ""] {[ "invalid" := PropertyId_of 0 ]}
              : IdNameMap PropertyId).
  pose (m1 := mkIdNameMap ["invalid"; "margin"; ""]
                (<["margin" := PropertyId_of 1]> {[ "invalid" := PropertyId_of 0 ]})
              : IdNameMap PropertyId).
  assert (H0 : reachable_fresh_slots m0).
  { apply (fresh_new 3). reflexivity. }
  assert (H1 : reachable_fresh_slots m1).
  { apply (fresh_AddPair m0 (PropertyId_of 1) "margin"); [exact H0 | | |]; done. }
  exact (fresh_GetOrCreateId m1 "color" H1 ltac:(done)).
Defined.

Lemma example_registry_inv : registry_inv example_registry.
Proof.
  pose (m0 := mkIdNameMap ["invalid"; ""; ""] {[ "invalid" := PropertyId_of 0 ]}
              : IdNameMap PropertyId).
  pose (m1 := mkIdNameMap ["invalid"; "margin"; ""]
                (<["margin" := PropertyId_of 1]> {[ "invalid" := PropertyId_of 0 ]})
              : IdNameMap PropertyId).
  assert (H0 : registry_inv m0) by by apply (registry_inv_new 3).
  assert (H1 : registry_inv m1).
  { by apply (registry_inv_AddPair (PropertyId_of 1) "margin" m0 m1). }
  exact (registry_inv_GetOrCreateId "color" m1 H1 ltac:(done)).
Qed.

(** The example registry is the state of an orderly run, and so is the
    one-bit registry with its second slot named. *)
Lemma example_registry_orderly : reachable_orderly example_registry.
Proof.
  pose (m0 := mkIdNameMap ["invalid"; ""; ""] {[ "invalid" := PropertyId_of 0 ]}
              : IdNameMap PropertyId).
  pose (m1 := mkIdNameMap ["invalid"; "margin"; ""]
                (<["margin" := PropertyId_of 1]> {[ "invalid" := PropertyId_of 0 ]})
              : IdNameMap PropertyId).
  assert (H0 : reachable_orderly m0).
  { apply (orderly_new 3). reflexivity. }
  assert (H1 : reachable_orderly m1).
  { apply (orderly_AddPair m0 (PropertyId_of 1) "margin"); [exact H0 | | |]; done. }
  exact (orderly_GetOrCreateId m1 "color" H1 ltac:(done) (λ _, eq_refl)).
Defined.

Lemma narrow_registry_orderly : reachable_orderly narrow_registry.
Proof.
  pose (m0 := mkIdNameMap ["invalid"; ""] {[ "invalid" := NarrowId_of false ]}
              : IdNameMap NarrowId).
  assert (H0 : reachable_orderly m0).
  { apply (orderly_new 2). reflexivity. }
  apply (orderly_AddPair m0 (NarrowId_of true) "on"); [exact H0 | | |]; done.
Defined.

(** The invariant of C7 at the example registry and at the one-bit
    registry. *)
Lemma registry_inv_orderly_example :
  registry_inv example_registry ∧ registry_inv narrow_registry.
Proof.
  split.
  - exact (proj1 (registry_inv_orderly example_registry example_registry_orderly)).
  - exact (proj1 (registry_inv_orderly narrow_registry narrow_registry_orderly)).
Defined.



(** * Properties of the declarations *)

Lemma FallThrough_walk_no_token {Value}
    (parse_item : PropertyDictionary Value → ShorthandItemId → string →
                  option (PropertyDictionary Value))
    (items : ShorthandItemIdList) (dictionary : PropertyDictionary Value) :
  FallThrough_walk parse_item items [] dictionary = Some dictionary.
Proof. by destruct items. Qed.

Lemma FallThrough_walk_falls_through {Value}
    (parse_item : PropertyDictionary Value → ShorthandItemId → string →
                  option (PropertyDictionary Value))
    (item : ShorthandItemId) (items : ShorthandItemIdList)
    (token : string) (tokens : list string) (dictionary : PropertyDictionary Value) :
  parse_item dictionary item token = None →
  FallThrough_walk parse_item (item :: items) (token :: tokens) dictionary
  = FallThrough_walk parse_item items (token :: tokens) dictionary.
Proof. intros Hfail. simpl. by rewrite Hfail. Qed.

Lemma FallThrough_taken_skip (accepts : PropertyId → string → bool)
    (rejecting : list PropertyId) (id : PropertyId) (rest : list PropertyId)
    (token : string) (others : list string) :
  (∀ r, r ∈ rejecting → accepts r token = false) → accepts id token = true →
  FallThrough_taken accepts (rejecting ++ id :: rest) (token :: others)
  = ((λ _, None) <$> rejecting) ++ Some token :: FallThrough_taken accepts rest others.
Proof.
  intros Hrejecting Hid.
  induction rejecting as [|r rejecting IH]; cbn [app fmap list_fmap FallThrough_taken].
  - by rewrite Hid.
  - rewrite (Hrejecting r) by left. f_equal. apply IH.
    intros r' Hr'. apply Hrejecting. by right.
Qed.

Lemma FallThrough_taken_no_token (accepts : PropertyId → string → bool)
    (ids : list PropertyId) :
  FallThrough_taken accepts ids [] = (λ _, None) <$> ids.
Proof. by destruct ids. Qed.

Lemma omap_unset {A B} (l : list A) :
  omap (λ token : option B, token) ((λ _, None) <$> l) = [].
Proof. by induction l. Qed.

Section declaration_facts.
Context {Value : Type}.
Variables (spec : PropertySpecification Value)
  (source_file : string) (source_line_number : Z).

Implicit Types (dictionary : PropertyDictionary Value) (ids : list PropertyId)
  (tokens : list string).

Lemma parse_shorthand_expand depth dictionary shorthand_id property_value :
  ∃ nested,
    parse_shorthand depth spec dictionary shorthand_id property_value
      source_file source_line_number
    = expand (parse_item_with nested spec source_file source_line_number)
        spec dictionary shorthand_id property_value.
Proof. destruct depth; eexists; reflexivity. Qed.

Lemma committed_Some dictionary dictionary' :
  committed dictionary (Some dictionary') = (true, dictionary').
Proof. done. Qed.

Lemma committed_None dictionary :
  committed dictionary (None : option (PropertyDictionary Value)) = (false, dictionary).
Proof. done. Qed.

Section property_items.
Variable nested :
  PropertyDictionary Value → ShorthandId → string → option (PropertyDictionary Value).

Local Abbreviation parse_item :=
  (parse_item_with nested spec source_file source_line_number).

Lemma parse_item_property dictionary id token :
  parse_item dictionary (Item_Property id) token =
    (λ v, <[id := mkProperty v source_file source_line_number]> dictionary)
      <$> parse_value spec id token.
Proof.
  unfold parse_item, parse_item_with, parse_property.
  by destruct (parse_value spec id token).
Qed.

Lemma Box_four_sides dictionary top right bottom left t r b l :
  NoDup [top; right; bottom; left] →
  Box_outcome spec dictionary source_file source_line_number
    top right bottom left t r b l
    (committed dictionary
       (parse_one_to_one parse_item
          [Item_Property top; Item_Property right;
           Item_Property bottom; Item_Property left]
          [t; r; b; l] dictionary)).
Proof.
  intros Hnodup. unfold Box_outcome. simpl. unfold parse_property.
  destruct (parse_value spec top t) as [vt|]; simpl; [|done].
  destruct (parse_value spec right r) as [vr|]; simpl; [|done].
  destruct (parse_value spec bottom b) as [vb|]; simpl; [|done].
  destruct (parse_value spec left l) as [vl|]; simpl; [|done].
  apply NoDup_cons in Hnodup as [Htop Hnodup].
  apply NoDup_cons in Hnodup as [Hright Hnodup].
  apply NoDup_cons in Hnodup as [Hbottom _].
  repeat match goal with
         | H : _ ∉ _ :: _ |- _ => apply not_elem_of_cons in H as [? ?]
         end.
  split_and!; [done | by simplify_map_eq.. |].
  intros other. rewrite !not_elem_of_cons. intros (? & ? & ? & ? & _).
  by simplify_map_eq.
Qed.
Lemma Replicate_walk_failed_item ids tokens last dictionary i id token :
  ids !! i = Some id → tokens !! i = Some token →
  parse_value spec id token = None →
  Replicate_walk parse_item (Item_Property <$> ids) tokens last dictionary = None.
Proof.
  revert i tokens last dictionary.
  induction ids as [|first ids IH]; intros i tokens last dictionary Hid Htoken Hfail;
    [done|].
  destruct tokens as [|first_token tokens]; [done|].
  cbn [fmap list_fmap Replicate_walk]. rewrite parse_item_property.
  destruct i as [|i]; simpl in Hid, Htoken.
  - injection Hid as ->. injection Htoken as ->. by rewrite Hfail.
  - destruct (parse_value spec first first_token); simpl; [|done].
    by eapply IH.
Qed.

Lemma Replicate_walk_excess_tokens ids tokens last dictionary :
  length ids < length tokens →
  Replicate_walk parse_item (Item_Property <$> ids) tokens last dictionary = None.
Proof.
  revert tokens last dictionary.
  induction ids as [|first ids IH]; intros tokens last dictionary Hlen.
  - destruct tokens; [simpl in Hlen; lia | done].
  - destruct tokens as [|first_token tokens]; [simpl in Hlen; lia|].
    cbn [fmap list_fmap Replicate_walk]. rewrite parse_item_property.
    destruct (parse_value spec first first_token); simpl; [|done].
    apply IH. simpl in Hlen. lia.
Qed.

Lemma Replicate_walk_exhausted ids token property dictionary :
  ∃ dictionary',
    Replicate_walk parse_item (Item_Property <$> ids) []
      (Some (token, Some property)) dictionary = Some dictionary' ∧
    (∀ id, id ∈ ids → dictionary' !! id = Some property) ∧
    (∀ id, id ∉ ids → dictionary' !! id = dictionary !! id).
Proof.
  revert dictionary. induction ids as [|first ids IH]; intros dictionary.
  - exists dictionary. split_and!; [done | | done].
    intros id Hid. by apply elem_of_nil in Hid.
  - destruct (IH (<[first := property]> dictionary)) as (dictionary' & Hwalk & Hin & Hout).
    exists dictionary'. split_and!.
    + cbn [fmap list_fmap Replicate_walk]. simpl. exact Hwalk.
    + intros id Hid. destruct (decide (id ∈ ids)) as [Hids|Hids]; [by apply Hin|].
      apply elem_of_cons in Hid as [->|Hid]; [|done].
      by rewrite (Hout _ Hids), lookup_insert_eq.
    + intros id [Hne Hid]%not_elem_of_cons.
      by rewrite (Hout _ Hid), lookup_insert_ne.
Qed.

Lemma Replicate_walk_success ids tokens last dictionary :
  NoDup ids → tokens ≠ [] → length tokens ≤ length ids →
  (∀ i id token, ids !! i = Some id → tokens !! i = Some token →
     is_Some (parse_value spec id token)) →
  ∃ dictionary',
    Replicate_walk parse_item (Item_Property <$> ids) tokens last dictionary
      = Some dictionary' ∧
    (∀ i id, ids !! i = Some id →
       ∃ source_id token v,
         ids !! (i `min` (length tokens - 1)) = Some source_id ∧
         tokens !! (i `min` (length tokens - 1)) = Some token ∧
         parse_value spec source_id token = Some v ∧
         dictionary' !! id = Some (mkProperty v source_file source_line_number)) ∧
    (∀ id, id ∉ ids → dictionary' !! id = dictionary !! id).
Proof.
  revert tokens last dictionary.
  induction ids as [|first ids IH]; intros tokens last dictionary Hnodup Hne Hlen Hparse.
  { destruct tokens; [done | simpl in Hlen; lia]. }
  destruct tokens as [|first_token tokens]; [done|]. clear Hne.
  apply NoDup_cons in Hnodup as [Hfirst Hnodup].
  destruct (Hparse 0 first first_token) as [v Hv]; [done..|].
  cbn [fmap list_fmap Replicate_walk]. rewrite parse_item_property, Hv. simpl.
  rewrite lookup_insert_eq.
  set (property := mkProperty v source_file source_line_number).
  destruct tokens as [|second_token tokens].
  - destruct (Replicate_walk_exhausted ids first_token property
                (<[first := property]> dictionary))
      as (dictionary' & Hwalk & Hin & Hout).
    exists dictionary'. split_and!; [done | |].
    + intros i id Hid. exists first, first_token, v. simpl.
      rewrite Nat.min_0_r. split_and!; [done..|].
      destruct i as [|i]; simpl in Hid.
      * injection Hid as ->. by rewrite (Hout _ Hfirst), lookup_insert_eq.
      * apply Hin. by eapply list_elem_of_lookup_2.
    + intros id [Hne Hid]%not_elem_of_cons.
      by rewrite (Hout _ Hid), lookup_insert_ne.
  - destruct (IH (second_token :: tokens) (Some (first_token, Some property))
                (<[first := property]> dictionary))
      as (dictionary' & Hwalk & Hin & Hout); [done | done | simpl in *; lia | |].
    { intros i id token Hid Htoken. by apply (Hparse (S i)). }
    exists dictionary'. split_and!; [done | |].
    + intros i id Hid. destruct i as [|i]; simpl in Hid.
      * injection Hid as ->. exists id, first_token, v.
        split_and!; [done..|]. by rewrite (Hout _ Hfirst), lookup_insert_eq.
      * destruct (Hin i id Hid) as (source_id & token & w & Hs & Ht & Hw & Hd).
        exists source_id, token, w.
        match goal with
        | |- _ !! ?k = _ ∧ _ =>
            replace k with (S (i `min` (length (second_token :: tokens) - 1)))
              by (simpl; lia)
        end.
        split_and!; [exact Hs | exact Ht | exact Hw | exact Hd].
    + intros id [Hne Hid]%not_elem_of_cons.
      by rewrite (Hout _ Hid), lookup_insert_ne.
Qed.

Lemma FallThrough_walk_taken ids tokens dictionary dictionary' :
  NoDup ids →
  FallThrough_walk parse_item (Item_Property <$> ids) tokens dictionary
    = Some dictionary' →
  (∀ i id, ids !! i = Some id →
     match FallThrough_taken (accepts spec) ids tokens !! i with
     | Some (Some token) =>
         dictionary' !! id
           = (λ v, mkProperty v source_file source_line_number)
               <$> parse_value spec id token
     | _ => dictionary' !! id = dictionary !! id
     end) ∧
  (∀ id, id ∉ ids → dictionary' !! id = dictionary !! id).
Proof.
  revert tokens dictionary.
  induction ids as [|first ids IH]; intros tokens dictionary Hnodup Hwalk.
  { destruct tokens; [|done]. simpl in Hwalk. injection Hwalk as <-. done. }
  apply NoDup_cons in Hnodup as [Hfirst Hnodup].
  destruct tokens as [|token rest].
  { simpl in Hwalk. injection Hwalk as <-. split; [|done].
    intros i id Hid. simpl.
    destruct i as [|i]; simpl; [done|].
    rewrite list_lookup_fmap. by destruct (ids !! i). }
  cbn [fmap list_fmap FallThrough_walk] in Hwalk.
  rewrite parse_item_property in Hwalk.
  cbn [FallThrough_taken]. unfold accepts at 1.
  destruct (parse_value spec first token) as [v|] eqn:Hv; simpl in Hwalk.
  - rewrite bool_decide_eq_true_2 by eauto.
    destruct (IH _ _ Hnodup Hwalk) as [Hin Hout].
    split.
    + intros i id Hid. destruct i as [|i]; simpl in Hid |- *.
      * injection Hid as ->. by rewrite (Hout _ Hfirst), lookup_insert_eq, Hv.
      * specialize (Hin i id Hid).
        assert (first ≠ id).
        { intros ->. apply Hfirst. by eapply list_elem_of_lookup_2. }
        destruct (FallThrough_taken (accepts spec) ids rest !! i) as [[?|]|];
          by rewrite ?Hin, ?lookup_insert_ne.
    + intros id [Hne Hid]%not_elem_of_cons.
      by rewrite (Hout _ Hid), lookup_insert_ne.
  - rewrite bool_decide_eq_false_2 by (by intros [? ?]).
    destruct (IH _ _ Hnodup Hwalk) as [Hin Hout].
    split.
    + intros i id Hid. destruct i as [|i]; simpl in Hid |- *.
      * injection Hid as ->. by apply Hout.
      * by apply Hin.
    + intros id [Hne Hid]%not_elem_of_cons. by apply Hout.
Qed.

Lemma FallThrough_taken_accepts ids tokens i id token :
  ids !! i = Some id →
  FallThrough_taken (accepts spec) ids tokens !! i = Some (Some token) →
  is_Some (parse_value spec id token).
Proof.
  revert tokens i. induction ids as [|first ids IH]; intros tokens i Hid Htaken; [done|].
  destruct tokens as [|first_token rest].
  { simpl in Htaken. destruct i as [|i]; simpl in Htaken; [done|].
    rewrite list_lookup_fmap in Htaken. by destruct (ids !! i). }
  cbn [FallThrough_taken] in Htaken.
  destruct (accepts spec first first_token) eqn:Haccepts.
  - destruct i as [|i]; simpl in Hid, Htaken.
    + injection Hid as ->. injection Htaken as ->.
      by apply bool_decide_eq_true in Haccepts.
    + by eapply IH.
  - destruct i as [|i]; simpl in Hid, Htaken; [done|]. by eapply IH.
Qed.

(** The walk succeeds exactly when every token finds an item. *)
Lemma FallThrough_walk_is_Some ids tokens dictionary :
  is_Some (FallThrough_walk parse_item (Item_Property <$> ids) tokens dictionary)
  ↔ FallThrough_matched (accepts spec) ids tokens = tokens.
Proof.
  revert tokens dictionary.
  induction ids as [|first ids IH]; intros tokens dictionary.
  { destruct tokens as [|token rest].
    - split; [done | by eexists].
    - split; [by intros [? ?] | done]. }
  destruct tokens as [|token rest].
  { rewrite FallThrough_walk_no_token. unfold FallThrough_matched.
    cbn [FallThrough_taken]. rewrite omap_unset. split; [done | by eexists]. }
  cbn [fmap list_fmap FallThrough_walk]. rewrite parse_item_property.
  unfold FallThrough_matched. cbn [FallThrough_taken]. unfold accepts at 1.
  destruct (parse_value spec first token) as [v|] eqn:Hv; cbn [fmap option_fmap option_map].
  - rewrite bool_decide_eq_true_2 by eauto. cbn [omap list_omap].
    rewrite IH. unfold FallThrough_matched.
    split; [by intros -> | by intros [= ->]].
  - rewrite bool_decide_eq_false_2 by (by intros [? ?]). cbn [omap list_omap].
    apply IH.
Qed.

End property_items.
End declaration_facts.

Lemma ParsePropertyValues_nonempty values split_values tokens :
  ParsePropertyValues values split_values = Some tokens → tokens ≠ [].
Proof.
  unfold ParsePropertyValues.
  destruct (decide (split_top_level _ 0 false "" values = [])); [done|].
  by intros [= <-].
Qed.

(** C1.  A Box shorthand over the four properties top, right, bottom and
    left, given a value that splits into tokens: one token is parsed for
    all four sides; of two tokens the first is parsed for top and bottom
    and the second for right and left; four tokens are parsed for top,
    right, bottom and left in that order; any other number of tokens, and
    a value with no token, fails and leaves the dictionary as it was.
    Each side holds the value its own parser gives, and when one side
    does not parse the whole declaration fails (see [Box_outcome]). *)
Theorem Box_declaration {Value} (spec : PropertySpecification Value)
    (dictionary : PropertyDictionary Value) (shorthand_id : ShorthandId)
    (property_value source_file : string) (source_line_number : Z)
    (top right bottom left : PropertyId) :
  GetShorthand spec shorthand_id
    = Some (mkShorthandDefinition
              [Item_Property top; Item_Property right;
               Item_Property bottom; Item_Property left] Box) →
  NoDup [top; right; bottom; left] →
  let result :=
    ParseShorthandDeclaration spec dictionary shorthand_id property_value
      source_file source_line_number in
  let outcome :=
    Box_outcome spec dictionary source_file source_line_number top right bottom left in
  match ParsePropertyValues property_value true with
  | Some [a] => outcome a a a a result
  | Some [a; b] => outcome a b a b result
  | Some [a; b; c; d] => outcome a b c d result
  | _ => result = (false, dictionary)
  end.
Proof.
  intros Hdef Hnodup result outcome. subst result outcome.
  unfold ParseShorthandDeclaration.
  destruct (parse_shorthand_expand spec source_file source_line_number
              (length (shorthands spec)) dictionary shorthand_id property_value)
    as [nested ->].
  unfold expand. rewrite Hdef. simpl.
  destruct (ParsePropertyValues property_value true) as [tokens|]; simpl; [|done].
  destruct tokens as [|a [|b [|c [|d [|e tokens]]]]]; simpl; try done.
  all: by apply Box_four_sides.
Qed.

(** The margin shorthand of the example specification, with four tokens. *)
Lemma Box_declaration_margin :
  Box_outcome example_spec ∅ "a.rcss" 3
    (PropertyId_of 1) (PropertyId_of 2) (PropertyId_of 3) (PropertyId_of 4)
    "1px" "2px" "3px" "4px"
    (ParseShorthandDeclaration example_spec ∅ (ShorthandId_of 4)
       "1px 2px 3px 4px" "a.rcss" 3).
Proof.
  refine (Box_declaration example_spec ∅ (ShorthandId_of 4) "1px 2px 3px 4px" "a.rcss" 3
            (PropertyId_of 1) (PropertyId_of 2) (PropertyId_of 3) (PropertyId_of 4) _ _).
  - vm_compute. reflexivity.
  - apply (bool_decide_unpack _). vm_compute. reflexivity.
Defined.

(** The ids that registration gave in the example specification. *)
Lemma example_ids :
  margin = ShorthandId_of 4 ∧ border_color = ShorthandId_of 5 ∧
  font = ShorthandId_of 6 ∧
  property <$> ["margin-top"; "margin-right"; "margin-bottom"; "margin-left"]
    = PropertyId_of <$> [1; 2; 3; 4] ∧
  property <$> ["border-top-color"; "border-right-color";
                "border-bottom-color"; "border-left-color"]
    = PropertyId_of <$> [5; 6; 7; 8] ∧
  property <$> ["font-style"; "font-weight"; "color"]
    = PropertyId_of <$> [9; 10; 11].
Proof. split_and!; vm_compute; reflexivity. Qed.

(** C2.  A Replicate shorthand over property items, given a value that
    splits into tokens.  Items take tokens one-to-one: when a token does
    not parse for its item the declaration fails and the dictionary is
    left as it was, and so it is when there are more tokens than items.
    When every token parses for its item, the declaration succeeds, item
    i holds the value parsed from token i by its own parser, and every
    item past the last token holds the value parsed from the last token
    by the item of the last token; no other key changes. *)
Theorem Replicate_declaration {Value} (spec : PropertySpecification Value)
    (dictionary : PropertyDictionary Value) (shorthand_id : ShorthandId)
    (property_value source_file : string) (source_line_number : Z)
    (ids : list PropertyId) (tokens : list string) :
  GetShorthand spec shorthand_id
    = Some (mkShorthandDefinition (Item_Property <$> ids) Replicate) →
  NoDup ids →
  ParsePropertyValues property_value true = Some tokens →
  let result :=
    ParseShorthandDeclaration spec dictionary shorthand_id property_value
      source_file source_line_number in
  (∀ i id token,
     ids !! i = Some id → tokens !! i = Some token →
     parse_value spec id token = None → result = (false, dictionary)) ∧
  (length ids < length tokens → result = (false, dictionary)) ∧
  ((∀ i id token,
      ids !! i = Some id → tokens !! i = Some token →
      is_Some (parse_value spec id token)) →
   length tokens ≤ length ids →
   result.1 = true ∧
   (∀ i id, ids !! i = Some id →
      ∃ source_id token v,
        ids !! (i `min` (length tokens - 1)) = Some source_id ∧
        tokens !! (i `min` (length tokens - 1)) = Some token ∧
        parse_value spec source_id token = Some v ∧
        result.2 !! id = Some (mkProperty v source_file source_line_number)) ∧
   (∀ id, id ∉ ids → result.2 !! id = dictionary !! id)).
Proof.
  intros Hdef Hnodup Htokens result. subst result.
  unfold ParseShorthandDeclaration.
  destruct (parse_shorthand_expand spec source_file source_line_number
              (length (shorthands spec)) dictionary shorthand_id property_value)
    as [nested ->].
  unfold expand. rewrite Hdef. simpl. rewrite Htokens. simpl.
  split_and!.
  - intros i id token Hid Htoken Hfail.
    by rewrite (Replicate_walk_failed_item spec source_file source_line_number
                  nested ids tokens None dictionary i id token).
  - intros Hlen.
    by rewrite (Replicate_walk_excess_tokens spec source_file source_line_number
                  nested ids tokens None dictionary).
  - intros Hparse Hlen.
    destruct (Replicate_walk_success spec source_file source_line_number
                nested ids tokens None dictionary)
      as (dictionary' & -> & Hin & Hout);
      [done | by eapply ParsePropertyValues_nonempty | done..|].
    done.
Qed.

(** The border-color shorthand of the example specification with the two
    tokens red and green: the bottom and left sides hold green. *)
Lemma Replicate_declaration_border_color :
  let result :=
    ParseShorthandDeclaration example_spec ∅ (ShorthandId_of 5) "red green" "a.rcss" 3 in
  result.1 = true ∧
  result.2 !! PropertyId_of 5 = Some (mkProperty "red" "a.rcss" 3%Z) ∧
  result.2 !! PropertyId_of 6 = Some (mkProperty "green" "a.rcss" 3%Z) ∧
  result.2 !! PropertyId_of 7 = Some (mkProperty "green" "a.rcss" 3%Z) ∧
  result.2 !! PropertyId_of 8 = Some (mkProperty "green" "a.rcss" 3%Z).
Proof.
  intros result.
  destruct (Replicate_declaration example_spec ∅ (ShorthandId_of 5) "red green" "a.rcss" 3
              [PropertyId_of 5; PropertyId_of 6; PropertyId_of 7; PropertyId_of 8]
              ["red"; "green"])
    as (_ & _ & Hsuccess).
  - vm_compute. reflexivity.
  - apply (bool_decide_unpack _). vm_compute. reflexivity.
  - vm_compute. reflexivity.
  - destruct Hsuccess as (Hflag & Hitems & _).
    + intros i id token Hid Htoken.
      destruct i as [|[|i]]; [| |discriminate Htoken];
        injection Hid as <-; injection Htoken as <-;
        vm_compute; eexists; reflexivity.
    + apply (bool_decide_unpack _). vm_compute. reflexivity.
    + split; [exact Hflag|].
      pose proof (Hitems 0 _ eq_refl) as (? & ? & ? & Hs0 & Ht0 & Hv0 & H0).
      pose proof (Hitems 1 _ eq_refl) as (? & ? & ? & Hs1 & Ht1 & Hv1 & H1).
      pose proof (Hitems 2 _ eq_refl) as (? & ? & ? & Hs2 & Ht2 & Hv2 & H2).
      pose proof (Hitems 3 _ eq_refl) as (? & ? & ? & Hs3 & Ht3 & Hv3 & H3).
      injection Hs0 as <-. injection Ht0 as <-.
      injection Hs1 as <-. injection Ht1 as <-.
      injection Hs2 as <-. injection Ht2 as <-.
      injection Hs3 as <-. injection Ht3 as <-.
      vm_compute in Hv0, Hv1, Hv2, Hv3.
      injection Hv0 as <-. injection Hv1 as <-.
      injection Hv2 as <-. injection Hv3 as <-.
      split_and!; assumption.
Defined.

(** C3.  A FallThrough shorthand over property items, given a value that
    splits into tokens.  [FallThrough_taken] tells which token each item
    takes: a token that an item does not parse is tried on the next item,
    and on the one after it, until an item parses it.  The declaration
    succeeds exactly when every token finds an item in this way; when it
    does not, the dictionary is as before the call.  Every item that takes
    no token keeps in the dictionary what was there before the call, no
    entry when there was none; an item that takes a token holds the value
    its parser gives for it when the declaration succeeds; no other key
    changes.  For a first token that any number of items turn down before
    an item parses it: the items that turned it down are as before the
    call, the declaration succeeds exactly when the remaining tokens find
    their items among the remaining items, and the item then holds the
    parsed value.  In particular, when the first item does not parse the
    only token and the second item does, the declaration succeeds, the
    first item is left as it was and the second holds the parsed value. *)
Theorem FallThrough_declaration {Value} (spec : PropertySpecification Value)
    (dictionary : PropertyDictionary Value) (shorthand_id : ShorthandId)
    (property_value source_file : string) (source_line_number : Z)
    (ids : list PropertyId) (tokens : list string) :
  GetShorthand spec shorthand_id
    = Some (mkShorthandDefinition (Item_Property <$> ids) FallThrough) →
  NoDup ids →
  ParsePropertyValues property_value true = Some tokens →
  let result :=
    ParseShorthandDeclaration spec dictionary shorthand_id property_value
      source_file source_line_number in
  let taken := FallThrough_taken (accepts spec) ids tokens in
  (∀ i id, ids !! i = Some id → taken !! i = Some None →
     result.2 !! id = dictionary !! id) ∧
  (∀ i id token, ids !! i = Some id → taken !! i = Some (Some token) →
     result.1 = true →
     ∃ v, parse_value spec id token = Some v ∧
          result.2 !! id = Some (mkProperty v source_file source_line_number)) ∧
  (∀ id, id ∉ ids → result.2 !! id = dictionary !! id) ∧
  (∀ first second rest token v,
     ids = first :: second :: rest → tokens = [token] →
     parse_value spec first token = None →
     parse_value spec second token = Some v →
     result.1 = true ∧
     result.2 !! first = dictionary !! first ∧
     result.2 !! second = Some (mkProperty v source_file source_line_number)) ∧
  (result.1 = true ↔ FallThrough_matched (accepts spec) ids tokens = tokens) ∧
  (result.1 = false → result.2 = dictionary) ∧
  (∀ rejecting id rest token others v,
     ids = rejecting ++ id :: rest → tokens = token :: others →
     (∀ r, r ∈ rejecting → parse_value spec r token = None) →
     parse_value spec id token = Some v →
     (∀ r, r ∈ rejecting → result.2 !! r = dictionary !! r) ∧
     (result.1 = true ↔ FallThrough_matched (accepts spec) rest others = others) ∧
     (result.1 = true →
        result.2 !! id = Some (mkProperty v source_file source_line_number))).
Proof.
  intros Hdef Hnodup Htokens result taken.
  assert (Hmain :
    (∀ i id, ids !! i = Some id → taken !! i = Some None →
       result.2 !! id = dictionary !! id) ∧
    (∀ i id token, ids !! i = Some id → taken !! i = Some (Some token) →
       result.1 = true →
       ∃ v, parse_value spec id token = Some v ∧
            result.2 !! id = Some (mkProperty v source_file source_line_number)) ∧
    (∀ id, id ∉ ids → result.2 !! id = dictionary !! id) ∧
    (result.1 = true ↔ FallThrough_matched (accepts spec) ids tokens = tokens) ∧
    (result.1 = false → result.2 = dictionary)).
  { subst result taken. unfold ParseShorthandDeclaration.
    destruct (parse_shorthand_expand spec source_file source_line_number
                (length (shorthands spec)) dictionary shorthand_id property_value)
      as [nested ->].
    unfold expand. rewrite Hdef. simpl. rewrite Htokens. simpl.
    pose proof (FallThrough_walk_is_Some spec source_file source_line_number
                  nested ids tokens dictionary) as Hsuccess.
    destruct (FallThrough_walk _ _ tokens dictionary) as [dictionary'|] eqn:Hwalk;
      simpl.
    - destruct (FallThrough_walk_taken spec source_file source_line_number
                  nested ids tokens dictionary dictionary' Hnodup Hwalk) as [Hin Hout].
      split_and!; [| |done| |done].
      + intros i id Hid Htaken. specialize (Hin i id Hid). by rewrite Htaken in Hin.
      + intros i id token Hid Htaken _. specialize (Hin i id Hid).
        rewrite Htaken in Hin.
        destruct (FallThrough_taken_accepts spec ids tokens i id token Hid Htaken)
          as [v Hv].
        exists v. by rewrite Hin, Hv.
      + split; [intros _ | done]. apply Hsuccess. by eexists.
    - split_and!; [done | done | done | | done].
      split; [done|]. intros [? Hsome]%Hsuccess. discriminate Hsome. }
  destruct Hmain as (Hunset & Htaken & Hframe & Hsuccess & Hfailure).
  split_and!; [done | done | done | | done | done |].
  - intros first second rest token v -> -> Hfirst Hsecond.
    assert (Hfirst' : accepts spec first token = false).
    { unfold accepts. by rewrite Hfirst, bool_decide_eq_false_2 by (by intros [? ?]). }
    assert (Hsecond' : accepts spec second token = true).
    { unfold accepts. by rewrite Hsecond, bool_decide_eq_true_2 by eauto. }
    assert (Hresult : result.1 = true).
    { apply Hsuccess. unfold FallThrough_matched. cbn [FallThrough_taken].
      rewrite Hfirst', Hsecond'. cbn [omap list_omap].
      by rewrite FallThrough_taken_no_token, omap_unset. }
    split_and!; [done | |].
    + apply (Hunset 0); [done|]. subst taken. cbn [FallThrough_taken].
      by rewrite Hfirst'.
    + destruct (Htaken 1 second token) as (w & Hw & ->); [done | | done |].
      * subst taken. cbn [FallThrough_taken]. by rewrite Hfirst', Hsecond'.
      * congruence.
  - intros rejecting id rest token others v -> -> Hrejecting Hid.
    assert (Hskip : taken
      = ((λ _, None) <$> rejecting)
          ++ Some token :: FallThrough_taken (accepts spec) rest others).
    { subst taken. apply FallThrough_taken_skip.
      - intros r Hr. unfold accepts.
        by rewrite (Hrejecting r Hr), bool_decide_eq_false_2 by (by intros [? ?]).
      - unfold accepts. by rewrite Hid, bool_decide_eq_true_2 by eauto. }
    split_and!.
    + intros r [i Hi]%list_elem_of_lookup.
      apply (Hunset i); [by apply lookup_app_l_Some|].
      rewrite Hskip, lookup_app_l
        by (rewrite length_fmap; by eapply lookup_lt_Some).
      by rewrite list_lookup_fmap, Hi.
    + rewrite Hsuccess. unfold FallThrough_matched. fold taken.
      rewrite Hskip, omap_app, omap_unset. cbn [app omap list_omap].
      split; [by intros [= ->] | by intros ->].
    + intros Hresult.
      destruct (Htaken (length rejecting) id token) as (w & Hw & ->);
        [| | done |].
      * by rewrite lookup_app_r, Nat.sub_diag.
      * rewrite Hskip, lookup_app_r by (by rewrite length_fmap).
        by rewrite length_fmap, Nat.sub_diag.
      * congruence.
Qed.

(** The font shorthand of the example specification with the token bold:
    font-style does not parse it and stays unset, font-weight takes it.
    The font shorthand of three items: bold alone falls through the style
    and the size to the weight; of italic and bold the style takes
    italic, the size turns bold down and the weight takes it; bold and
    italic fails, no item being left for italic, and nothing is set. *)
Lemma FallThrough_declaration_font :
  let result :=
    ParseShorthandDeclaration example_spec ∅ (ShorthandId_of 6) "bold" "a.rcss" 3 in
  let bold :=
    ParseShorthandDeclaration text_spec ∅ (ShorthandId_of 4) "bold" "a.rcss" 3 in
  let italic_bold :=
    ParseShorthandDeclaration text_spec ∅ (ShorthandId_of 4) "italic bold" "a.rcss" 3 in
  let bold_italic :=
    ParseShorthandDeclaration text_spec ∅ (ShorthandId_of 4) "bold italic" "a.rcss" 3 in
  (result.1 = true ∧
   result.2 !! PropertyId_of 9 = (∅ : PropertyDictionary string) !! PropertyId_of 9 ∧
   result.2 !! PropertyId_of 10 = Some (mkProperty "bold" "a.rcss" 3%Z)) ∧
  (bold.1 = true ∧
   bold.2 !! PropertyId_of 1 = None ∧
   bold.2 !! PropertyId_of 2 = None ∧
   bold.2 !! PropertyId_of 3 = Some (mkProperty "bold" "a.rcss" 3%Z)) ∧
  (italic_bold.1 = true ∧
   italic_bold.2 !! PropertyId_of 1 = Some (mkProperty "italic" "a.rcss" 3%Z) ∧
   italic_bold.2 !! PropertyId_of 2 = None ∧
   italic_bold.2 !! PropertyId_of 3 = Some (mkProperty "bold" "a.rcss" 3%Z)) ∧
  (bold_italic.1 = false ∧ bold_italic.2 = ∅).
Proof.
  intros result bold italic_bold bold_italic.
  assert (Hfont : GetShorthand text_spec (ShorthandId_of 4)
            = Some (mkShorthandDefinition
                      (Item_Property <$> [PropertyId_of 1; PropertyId_of 2; PropertyId_of 3])
                      FallThrough)) by (vm_compute; reflexivity).
  assert (Hnodup : NoDup [PropertyId_of 1; PropertyId_of 2; PropertyId_of 3])
    by (apply (bool_decide_unpack _); vm_compute; reflexivity).
  refine (conj _ (conj _ (conj _ _))).
  - destruct (FallThrough_declaration example_spec ∅ (ShorthandId_of 6) "bold" "a.rcss" 3
                [PropertyId_of 9; PropertyId_of 10] ["bold"])
      as (_ & _ & _ & Hexample & _).
    + vm_compute. reflexivity.
    + apply (bool_decide_unpack _). vm_compute. reflexivity.
    + vm_compute. reflexivity.
    + apply (Hexample (PropertyId_of 9) (PropertyId_of 10) [] "bold" "bold");
        [reflexivity | reflexivity | |]; vm_compute; reflexivity.
  - destruct (FallThrough_declaration text_spec ∅ (ShorthandId_of 4) "bold" "a.rcss" 3
                [PropertyId_of 1; PropertyId_of 2; PropertyId_of 3] ["bold"]
                Hfont Hnodup ltac:(vm_compute; reflexivity))
      as (_ & _ & _ & _ & _ & _ & Hskip).
    destruct (Hskip [PropertyId_of 1; PropertyId_of 2] (PropertyId_of 3) [] "bold" [] "bold")
      as (Hrejecting & Hsuccess & Hweight); [reflexivity | reflexivity | | |].
    + intros r [->|[->|Hr%elem_of_nil]%elem_of_cons]%elem_of_cons;
        [vm_compute; reflexivity | vm_compute; reflexivity | done].
    + vm_compute. reflexivity.
    + assert (Hbold : bold.1 = true) by (apply Hsuccess; reflexivity).
      split_and!; [exact Hbold | | | exact (Hweight Hbold)].
      * transitivity ((∅ : PropertyDictionary string) !! PropertyId_of 1);
          [|apply lookup_empty].
        apply Hrejecting. by left.
      * transitivity ((∅ : PropertyDictionary string) !! PropertyId_of 2);
          [|apply lookup_empty].
        apply Hrejecting. right. by left.
  - destruct (FallThrough_declaration text_spec ∅ (ShorthandId_of 4) "italic bold"
                "a.rcss" 3
                [PropertyId_of 1; PropertyId_of 2; PropertyId_of 3] ["italic"; "bold"]
                Hfont Hnodup ltac:(vm_compute; reflexivity))
      as (Hunset & Htaken & _ & _ & Hsuccess & _ & _).
    assert (Hresult : italic_bold.1 = true).
    { apply Hsuccess. vm_compute. reflexivity. }
    split_and!; [exact Hresult | | |].
    + destruct (Htaken 0 (PropertyId_of 1) "italic") as (v & Hv & Hentry);
        [reflexivity | vm_compute; reflexivity | exact Hresult |].
      vm_compute in Hv. injection Hv as <-. exact Hentry.
    + transitivity ((∅ : PropertyDictionary string) !! PropertyId_of 2);
        [|apply lookup_empty].
      apply (Hunset 1 (PropertyId_of 2)); [reflexivity|]. vm_compute. reflexivity.
    + destruct (Htaken 2 (PropertyId_of 3) "bold") as (v & Hv & Hentry);
        [reflexivity | vm_compute; reflexivity | exact Hresult |].
      vm_compute in Hv. injection Hv as <-. exact Hentry.
  - destruct (FallThrough_declaration text_spec ∅ (ShorthandId_of 4) "bold italic"
                "a.rcss" 3
                [PropertyId_of 1; PropertyId_of 2; PropertyId_of 3] ["bold"; "italic"]
                Hfont Hnodup ltac:(vm_compute; reflexivity))
      as (_ & _ & _ & _ & Hsuccess & Hfailure & _).
    assert (Hresult : bold_italic.1 = false).
    { destruct (bold_italic.1) eqn:Hflag; [|done].
      apply Hsuccess in Hflag. vm_compute in Hflag. discriminate Hflag. }
    split; [exact Hresult | exact (Hfailure Hresult)].
Defined.

(** * Defaults and registration *)

Lemma set_defaults_lookup {Value} `{!Unparsed Value} (index : nat)
    (table : list (option (PropertyDefinition Value)))
    (dictionary : PropertyDictionary Value) (id : PropertyId) :
  set_defaults index table dictionary !! id =
    match dictionary !! id with
    | Some property => Some property
    | None =>
        if decide (index ≤ id_index id)
        then default_property <$> mjoin (table !! (id_index id - index))
        else None
    end.
Proof.
  revert index dictionary.
  induction table as [|entry table IH]; intros index dictionary.
  { simpl. destruct (dictionary !! id); [done|]. by case_decide. }
  cbn [set_defaults]. rewrite IH. clear IH.
  destruct (decide (id_index id = index)) as [Hid|Hid].
  - assert (id_of_index index = id) as -> by (by rewrite <-Hid, id_of_index_index).
    rewrite Hid, Nat.sub_diag. simpl.
    destruct (dictionary !! id) as [property|] eqn:Hdict.
    { destruct entry; by rewrite Hdict. }
    rewrite decide_False, decide_True by lia.
    destruct entry as [definition|]; simpl; [|by rewrite Hdict].
    by rewrite lookup_insert_eq.
  - assert (Hne : id_of_index index ≠ id).
    { intros <-. by rewrite id_index_of_index in Hid. }
    assert (Hsame :
      match entry, dictionary !! (id_of_index index : PropertyId) with
      | Some definition, None =>
          <[id_of_index index := default_property definition]> dictionary
      | _, _ => dictionary
      end !! id = dictionary !! id).
    { destruct entry as [definition|]; [|done].
      destruct (dictionary !! id_of_index index); [done|].
      by rewrite lookup_insert_ne. }
    rewrite Hsame. destruct (dictionary !! id); [done|].
    destruct (decide (index ≤ id_index id)) as [Hle|Hgt].
    + rewrite decide_True by lia.
      replace (id_index id - index) with (S (id_index id - S index)) by lia.
      done.
    + by rewrite decide_False by lia.
Qed.

Lemma SetPropertyDefaults_lookup {Value} `{!Unparsed Value}
    (spec : PropertySpecification Value)
    (dictionary : PropertyDictionary Value) (id : PropertyId) :
  SetPropertyDefaults spec dictionary !! id =
    match dictionary !! id with
    | Some property => Some property
    | None => default_property <$> GetProperty spec id
    end.
Proof.
  unfold SetPropertyDefaults, GetProperty. rewrite set_defaults_lookup.
  destruct (dictionary !! id); [done|].
  by rewrite decide_True, Nat.sub_0_r by lia.
Qed.

(** C8.  After SetPropertyDefaults the dictionary has an entry for every
    registered property.  A registered property that was not a key gets
    the entry of its default: the value that the parser of its definition
    gives for the stored default text, with the default source arguments.
    Every key that was present, of a registered property or not, keeps
    its entry, and the key of an id that is not registered is as before
    the call, absent when it was absent. *)
Theorem SetPropertyDefaults_total {Value} `{!Unparsed Value}
    (spec : PropertySpecification Value) (dictionary : PropertyDictionary Value) :
  let result := SetPropertyDefaults spec dictionary in
  (∀ id definition, GetProperty spec id = Some definition →
     is_Some (result !! id) ∧
     (dictionary !! id = None →
        result !! id = Some (default_property definition) ∧
        ∀ v, parser definition (default_value definition) = Some v →
          result !! id = Some (mkProperty v "" 0%Z))) ∧
  (∀ id property, dictionary !! id = Some property → result !! id = Some property) ∧
  (∀ id, GetProperty spec id = None → result !! id = dictionary !! id).
Proof.
  intros result. subst result. split_and!.
  - intros id definition Hdef. split.
    + rewrite SetPropertyDefaults_lookup, Hdef. destruct (dictionary !! id); eauto.
    + intros Hdict. rewrite SetPropertyDefaults_lookup, Hdict, Hdef.
      split; [done|]. intros v Hv. simpl. unfold default_property. by rewrite Hv.
  - intros id property Hdict. by rewrite SetPropertyDefaults_lookup, Hdict.
  - intros id Hid. rewrite SetPropertyDefaults_lookup, Hid.
    by destruct (dictionary !! id).
Qed.

(** The property color registered with the default black: on the empty
    dictionary it gets the entry black, in the example specification,
    where its parser reads the default, and in the specification that
    registers it and attaches no parser; an entry that is present stays. *)
Lemma SetPropertyDefaults_color :
  GetProperty_by_name example_spec "color"
    = GetProperty example_spec (PropertyId_of 11) ∧
  SetPropertyDefaults example_spec ∅ !! PropertyId_of 11
    = Some (mkProperty "black" "" 0%Z) ∧
  GetId "color" (property_map color_spec) = PropertyId_of 1 ∧
  SetPropertyDefaults color_spec ∅ !! PropertyId_of 1
    = Some (mkProperty "black" "" 0%Z) ∧
  SetPropertyDefaults color_spec {[ PropertyId_of 1 := mkProperty "red" "a.rcss" 3%Z ]}
    !! PropertyId_of 1 = Some (mkProperty "red" "a.rcss" 3%Z).
Proof.
  split_and!; [vm_compute; reflexivity | | vm_compute; reflexivity | |].
  - destruct (GetProperty example_spec (PropertyId_of 11)) as [definition|] eqn:Hdef;
      [|vm_compute in Hdef; discriminate Hdef].
    destruct (SetPropertyDefaults_total example_spec ∅) as (Hregistered & _ & _).
    destruct (Hregistered (PropertyId_of 11) definition Hdef) as [_ Hdefault].
    destruct (Hdefault (lookup_empty _)) as [_ Hparsed].
    apply Hparsed.
    vm_compute in Hdef. injection Hdef as <-. vm_compute. reflexivity.
  - destruct (GetProperty color_spec (PropertyId_of 1)) as [definition|] eqn:Hdef;
      [|vm_compute in Hdef; discriminate Hdef].
    destruct (SetPropertyDefaults_total color_spec ∅) as (Hregistered & _ & _).
    destruct (Hregistered (PropertyId_of 1) definition Hdef) as [_ Hdefault].
    destruct (Hdefault (lookup_empty _)) as [-> _].
    vm_compute in Hdef. injection Hdef as <-. reflexivity.
  - destruct (SetPropertyDefaults_total color_spec
                {[ PropertyId_of 1 := mkProperty "red" "a.rcss" 3%Z ]})
      as (_ & Hpresent & _).
    apply Hpresent. apply lookup_singleton_eq.
Defined.


Lemma store_at_lookup_ne {A} (index other : nat) (x : A) (table : list (option A)) :
  index ≠ other → mjoin (store_at index x table !! other) = mjoin (table !! other).
Proof.
  intros Hne. unfold store_at. rewrite list_lookup_insert_ne by done.
  destruct (decide (other < length table)) as [Hlt|Hge].
  - by rewrite lookup_app_l.
  - rewrite lookup_app_r, (lookup_ge_None_2 table) by lia.
    destruct (replicate _ _ !! _) as [entry|] eqn:Hentry; [|done].
    by apply lookup_replicate in Hentry as [-> _].
Qed.




(** The examples of the specification on the example specification. *)
Example margin_one_token :
  let result := ParseShorthandDeclaration example_spec ∅ margin "5px" "a.rcss" 3 in
  result.1 = true ∧
  (λ name, value <$> result.2 !! property name)
    <$> ["margin-top"; "margin-right"; "margin-bottom"; "margin-left"]
  = [Some "5px"; Some "5px"; Some "5px"; Some "5px"].
Proof. split; vm_compute; reflexivity. Qed.

Example margin_two_tokens :
  let result := ParseShorthandDeclaration example_spec ∅ margin "5px 6px" "a.rcss" 3 in
  result.1 = true ∧
  (λ name, value <$> result.2 !! property name)
    <$> ["margin-top"; "margin-right"; "margin-bottom"; "margin-left"]
  = [Some "5px"; Some "6px"; Some "5px"; Some "6px"].
Proof. split; vm_compute; reflexivity. Qed.

Example margin_three_tokens :
  ParseShorthandDeclaration example_spec ∅ margin "5px 6px 7px" "a.rcss" 3 = (false, ∅).
Proof. vm_compute. reflexivity. Qed.

Example border_color_one_token :
  let result := ParseShorthandDeclaration example_spec ∅ border_color "red" "a.rcss" 3 in
  result.1 = true ∧
  (λ name, value <$> result.2 !! property name)
    <$> ["border-top-color"; "border-right-color";
         "border-bottom-color"; "border-left-color"]
  = [Some "red"; Some "red"; Some "red"; Some "red"].
Proof. split; vm_compute; reflexivity. Qed.

Example border_color_failed_token :
  ParseShorthandDeclaration example_spec ∅ border_color "red 5px" "a.rcss" 3 = (false, ∅).
Proof. vm_compute. reflexivity. Qed.

(** A shorthand of shorthands: every item of the Recursive shorthand is
    resolved with the whole value, the nested Replicate shorthand
    included. *)
Example colors_nested :
  let result := ParseShorthandDeclaration example_spec ∅ colors "red" "a.rcss" 3 in
  result.1 = true ∧
  (λ name, value <$> result.2 !! property name)
    <$> ["border-top-color"; "border-right-color";
         "border-bottom-color"; "border-left-color"; "color"; "margin-top"]
  = [Some "red"; Some "red"; Some "red"; Some "red"; Some "red"; None].
Proof. split; vm_compute; reflexivity. Qed.


(** * Runs, counts and lookups of the registry *)

Section IdNameMap_run_facts.
Context {ID : Type} `{IdType ID}.

Implicit Types (m : IdNameMap ID) (id : ID) (name : string).

Lemma AssertAllInserted_Returned last m :
  AssertAllInserted last m = Returned () ↔
    length (named_slots m) = id_index last ∧ size (reverse_map m) = id_index last.
Proof.
  unfold AssertAllInserted, ROCKET_ASSERT, named_slots.
  destruct (Nat.eqb_spec (length (filter (λ name, name ≠ "") (name_map m)))
              (id_index last));
    destruct (Nat.eqb_spec (size (reverse_map m)) (id_index last)); simpl;
    (split; [try done | by intros [? ?]]).
Qed.

Lemma registry_step_mono m m' :
  registry_step m m' →
  length (name_map m) ≤ length (name_map m') ∧
  ∀ name id, reverse_map m !! name = Some id → reverse_map m' !! name = Some id.
Proof.
  intros [m0 id name m1 Hadd | m0 name].
  - apply AddPair_Returned in Hadd as (_ & Hnew & ->). simpl.
    rewrite length_insert. split; [done|].
    intros name' id' Hl. rewrite lookup_insert_ne; [done|].
    intros ->. by rewrite Hnew in Hl.
  - destruct (reverse_map m0 !! name) as [id|] eqn:Hrm.
    { by rewrite (GetOrCreateId_known _ _ _ Hrm). }
    rewrite (GetOrCreateId_new _ _ Hrm). simpl. rewrite length_app. split; [lia|].
    intros name' id' Hl. rewrite lookup_insert_ne; [done|].
    intros ->. by rewrite Hrm in Hl.
Qed.

Lemma evolves_mono m m' :
  evolves m m' →
  length (name_map m) ≤ length (name_map m') ∧
  ∀ name id, reverse_map m !! name = Some id → reverse_map m' !! name = Some id.
Proof.
  induction 1 as [m | m m1 m2 Hstep _ [IHlen IHrm]]; [done|].
  apply registry_step_mono in Hstep as [Hlen Hrm]. split; [lia | auto].
Qed.

Lemma reachable_evolves m :
  reachable m ↔ ∃ n m0, IdNameMap_new n = Returned m0 ∧ evolves m0 m.
Proof.
  split.
  - induction 1 as [n m Hnew | m id name m' _ (n & m0 & Hnew & Hev) Hadd
                   | m name _ (n & m0 & Hnew & Hev)].
    + exists n, m. split; [done | apply rtc_refl].
    + exists n, m0. split; [done|].
      eapply rtc_r; [exact Hev | by eapply step_AddPair].
    + exists n, m0. split; [done|].
      eapply rtc_r; [exact Hev | apply step_GetOrCreateId].
  - intros (n & m0 & Hnew & Hev).
    revert m Hev. apply (rtc_ind_r (λ m, reachable m)).
    + by eapply reachable_new.
    + intros m1 m2 _ Hstep IH.
      destruct Hstep as [m1 id name m2 Hadd | m1 name].
      * by eapply reachable_AddPair.
      * by apply reachable_GetOrCreateId.
Qed.

Lemma reachable_invalid m :
  reachable m →
  reverse_map m !! "invalid" = Some Invalid ∧ 0 < length (name_map m).
Proof.
  intros (n & m0 & Hnew & Hev)%reachable_evolves.
  apply evolves_mono in Hev as [Hlen Hrm].
  apply IdNameMap_new_Returned in Hnew as [Hn ->]. simpl in *.
  rewrite length_insert, length_replicate in Hlen. split; [|lia].
  apply Hrm. apply lookup_singleton_eq.
Qed.

(** Whatever the calls and whatever the identifier type, a slot that holds
    a name has the reverse entry of that name pointing at it. *)
Lemma reachable_slots_have_entries m : reachable m → slots_have_entries m.
Proof.
  induction 1 as [n m Hnew | m id name m' _ IH Hadd | m name _ IH].
  - by destruct (registry_inv_new _ _ Hnew).
  - apply AddPair_Returned in Hadd as (Hlt & Hnew & ->).
    intros i name' Hi Hne. simpl in *.
    destruct (decide (i = id_index id)) as [->|Hi'].
    + rewrite list_lookup_insert_eq in Hi by done. injection Hi as <-.
      by rewrite lookup_insert_eq, id_of_index_index.
    + rewrite list_lookup_insert_ne in Hi by done.
      rewrite lookup_insert_ne; [by apply IH|].
      intros <-. by rewrite (IH _ _ Hi Hne) in Hnew.
  - destruct (reverse_map m !! name) as [id|] eqn:Hrm.
    { by rewrite (GetOrCreateId_known _ _ _ Hrm). }
    rewrite (GetOrCreateId_new _ _ Hrm).
    intros i name' Hi Hne. simpl in *.
    apply lookup_app_Some in Hi as [Hi|[Hge Hi]].
    + rewrite lookup_insert_ne; [by apply IH|].
      intros <-. by rewrite (IH _ _ Hi Hne) in Hrm.
    + apply list_lookup_singleton_Some in Hi as [Hi <-].
      rewrite lookup_insert_eq. do 2 f_equal. lia.
Qed.
End IdNameMap_run_facts.

Lemma NoDup_filter_lookup {A} (P : A → Prop) `{∀ x, Decision (P x)} (l : list A) :
  (∀ i j x, l !! i = Some x → l !! j = Some x → P x → i = j) →
  NoDup (filter P l).
Proof.
  induction l as [|a l IH]; intros Hinj; [constructor|].
  assert (Htail : NoDup (filter P l)).
  { apply IH. intros i j x Hi Hj HP.
    specialize (Hinj (S i) (S j) x Hi Hj HP). lia. }
  rewrite filter_cons. destruct (decide (P a)) as [HP|]; [|done].
  apply NoDup_cons. split; [|done].
  intros [_ [j Hj]%list_elem_of_lookup]%list_elem_of_filter.
  by specialize (Hinj 0 (S j) a eq_refl Hj HP).
Qed.

Section IdNameMap_counts.
Context {ID : Type} `{IdType ID, !IdUnbounded ID}.

Implicit Types (m : IdNameMap ID) (id : ID) (name : string).

Lemma named_slots_NoDup m : slots_have_entries m → NoDup (named_slots m).
Proof.
  intros Hse. apply NoDup_filter_lookup. intros i j name Hi Hj Hname.
  pose proof (Hse _ _ Hi Hname) as Hli. rewrite (Hse _ _ Hj Hname) in Hli.
  injection Hli as Hij. apply (f_equal id_index) in Hij.
  by rewrite !id_index_of_index in Hij.
Qed.

Lemma named_slots_entries m :
  slots_have_entries m →
  list_to_set (named_slots m) ⊆@{gset string} dom (reverse_map m).
Proof.
  intros Hse name [Hname [i Hi]%list_elem_of_lookup]%elem_of_list_to_set%list_elem_of_filter.
  apply elem_of_dom. rewrite (Hse _ _ Hi Hname). eauto.
Qed.

Lemma named_slots_le_entries m :
  slots_have_entries m → length (named_slots m) ≤ size (reverse_map m).
Proof.
  intros Hse.
  rewrite <-(size_list_to_set (C:=gset string)) by by apply named_slots_NoDup.
  rewrite <-(size_dom (D:=gset string)).
  by apply subseteq_size, named_slots_entries.
Qed.

Lemma entries_have_slots m :
  slots_have_entries m → length (named_slots m) = size (reverse_map m) →
  ∀ name id, reverse_map m !! name = Some id →
    name ≠ "" ∧ name_map m !! id_index id = Some name.
Proof.
  intros Hse Hcount name id Hl.
  assert (Heq : list_to_set (named_slots m) = dom (reverse_map m) :> gset string).
  { apply set_subseteq_size_eq; [by apply named_slots_entries|].
    rewrite size_list_to_set by by apply named_slots_NoDup.
    rewrite size_dom. lia. }
  assert (Hin : name ∈ named_slots m).
  { apply (elem_of_list_to_set (C:=gset string)). rewrite Heq.
    apply elem_of_dom. eauto. }
  apply list_elem_of_filter in Hin as [Hname [i Hi]%list_elem_of_lookup].
  split; [done|].
  rewrite (Hse _ _ Hi Hname) in Hl. injection Hl as <-.
  by rewrite id_index_of_index.
Qed.

Lemma registry_inv_counts m :
  registry_inv m → length (named_slots m) = size (reverse_map m).
Proof.
  intros [Hse Hes _].
  rewrite <-(size_list_to_set (C:=gset string)) by by apply named_slots_NoDup.
  rewrite <-(size_dom (D:=gset string)). f_equal.
  apply set_eq. intros name. rewrite elem_of_list_to_set, elem_of_dom. split.
  - intros [Hname [i Hi]%list_elem_of_lookup]%list_elem_of_filter.
    rewrite (Hse _ _ Hi Hname). eauto.
  - intros [id [Hname Hslot]%Hes]. apply list_elem_of_filter. split; [done|].
    by eapply list_elem_of_lookup_2.
Qed.

(** X1.  In every state that a run of AddPair and GetOrCreateId calls
    reaches from a fresh registry, a passing AssertAllInserted establishes
    the registry invariant: when the number of named slots and the number
    of reverse entries both equal the count asked for, every reverse entry
    has a non-empty name that its slot holds, every named slot has its
    entry, and slot 0 holds "invalid". *)
Theorem AssertAllInserted_establishes_invariant m last :
  reachable m → AssertAllInserted last m = Returned () → registry_inv m.
Proof.
  intros Hreach [Hcnt Hsize]%AssertAllInserted_Returned.
  pose proof (reachable_slot_entry m Hreach) as [Hse _].
  assert (Hes := entries_have_slots m Hse ltac:(lia)).
  split; [done | done |].
  destruct (reachable_invalid m Hreach) as [Hinvalid _].
  destruct (Hes _ _ Hinvalid) as [_ Hslot].
  by rewrite id_Invalid_zero in Hslot.
Qed.

(** X2.  For an identifier type whose cast from size_t does not wrap:
    in a registry that satisfies the registry invariant the named slots
    are as many as the reverse entries, so AssertAllInserted passes for
    exactly one count: the number of registered names, the invalid one
    included. *)
Theorem AssertAllInserted_passes_iff m last :
  registry_inv m →
  (AssertAllInserted last m = Returned () ↔ id_index last = size (reverse_map m)).
Proof.
  intros Hinv%registry_inv_counts. rewrite AssertAllInserted_Returned. lia.
Qed.
End IdNameMap_counts.

Section IdNameMap_stability.
Context {ID : Type} `{IdType ID}.

Implicit Types (m : IdNameMap ID) (id : ID) (name : string).

(** X3.  Ids are stable.  Once a name maps to an id, no run of further
    AddPair and GetOrCreateId calls changes or removes that mapping: GetId
    keeps returning the id, GetOrCreateId returns it without changing the
    registry, and the name sequence never shrinks. *)
Theorem ids_are_stable m m' name id :
  evolves m m' → reverse_map m !! name = Some id →
  GetId name m' = id ∧
  GetOrCreateId name m' = (id, m') ∧
  length (name_map m) ≤ length (name_map m').
Proof.
  intros [Hlen Hrm]%evolves_mono Hl. apply Hrm in Hl.
  split_and!; [| by apply GetOrCreateId_known | done].
  unfold GetId. by rewrite Hl.
Qed.

(** X4.  A name can be given to AddPair once at most.  When a name is
    registered, by AddPair or by GetOrCreateId, every later AddPair with
    that name fails its assertion, whatever id it is given and whatever
    calls came in between. *)
Theorem AddPair_rejects_registered_name m m' name id :
  evolves m m' → is_Some (reverse_map m !! name) →
  AddPair id name m' = AssertFailed.
Proof.
  intros [_ Hrm]%evolves_mono [old Hl]. apply AddPair_AssertFailed.
  right. exists old. by apply Hrm.
Qed.

(** X5.  The name "invalid" is taken from construction on.  In every
    reachable state GetId ("invalid") is the invalid id, as for a name
    that is not registered, GetOrCreateId ("invalid") returns the invalid
    id and changes nothing, and AddPair fails for that name on every id. *)
Theorem invalid_name_is_reserved m :
  reachable m →
  GetId "invalid" m = Invalid ∧
  GetOrCreateId "invalid" m = (Invalid, m) ∧
  ∀ id, AddPair id "invalid" m = AssertFailed.
Proof.
  intros [Hinvalid _]%reachable_invalid. split_and!.
  - unfold GetId. by rewrite Hinvalid.
  - by apply GetOrCreateId_known.
  - intros id. apply AddPair_AssertFailed. right. eauto.
Qed.

(** X6.  AddPair calls on different slots commute: naming slot a and then
    slot b gives the same outcome as naming b and then a, the same
    registry when both orders return and a failed assertion in both
    orders otherwise. *)
Theorem AddPair_commutes m id1 name1 id2 name2 :
  id_index id1 ≠ id_index id2 →
  (m1 ← AddPair id1 name1 m; AddPair id2 name2 m1)
  = (m2 ← AddPair id2 name2 m; AddPair id1 name1 m2).
Proof.
  intros Hslots.
  destruct (AddPair id1 name1 m) as [m1|] eqn:H1;
    destruct (AddPair id2 name2 m) as [m2|] eqn:H2; simpl; [| | |done].
  - apply AddPair_Returned in H1 as (Hlt1 & Hnew1 & ->).
    apply AddPair_Returned in H2 as (Hlt2 & Hnew2 & ->).
    destruct (decide (name1 = name2)) as [<-|Hnames].
    + transitivity (AssertFailed : checked (IdNameMap ID)); [|symmetry];
        apply AddPair_AssertFailed; right; simpl; rewrite lookup_insert_eq; eauto.
    + transitivity (Returned
        (mkIdNameMap (<[id_index id2 := name2]> (<[id_index id1 := name1]> (name_map m)))
                     (<[name2 := id2]> (<[name1 := id1]> (reverse_map m))))).
      * apply AddPair_Returned. simpl. rewrite length_insert, lookup_insert_ne by done.
        done.
      * symmetry. apply AddPair_Returned. simpl.
        rewrite length_insert, lookup_insert_ne by done. split_and!; [done..|].
        f_equal; [by apply list_insert_insert_ne | by apply insert_insert_ne].
  - apply AddPair_Returned in H1 as (Hlt1 & Hnew1 & ->).
    apply AddPair_AssertFailed in H2 as [Hge|[old Hold]];
      apply AddPair_AssertFailed; simpl; rewrite ?length_insert; [by left|].
    right. destruct (decide (name1 = name2)) as [<-|Hnames].
    + rewrite lookup_insert_eq. eauto.
    + rewrite lookup_insert_ne by done. eauto.
  - symmetry. apply AddPair_Returned in H2 as (Hlt2 & Hnew2 & ->).
    apply AddPair_AssertFailed in H1 as [Hge|[old Hold]];
      apply AddPair_AssertFailed; simpl; rewrite ?length_insert; [by left|].
    right. destruct (decide (name2 = name1)) as [<-|Hnames].
    + rewrite lookup_insert_eq. eauto.
    + rewrite lookup_insert_ne by done. eauto.
Qed.

Lemma filter_named_replicate n :
  filter (λ name : string, name ≠ "") (replicate n "") = [].
Proof. induction n as [|n IH]; [done|]. simpl. by rewrite filter_cons_False by auto. Qed.

(** X7.  What the constructor leaves.  Construction fails its assertion
    exactly when no slot is reserved.  In the registry it returns, GetId
    of every name is the invalid id, "invalid" included; GetName is
    "invalid" for the invalid id and for every id outside the reserved
    range, and the empty string for every other reserved id;
    AssertAllInserted passes for the count 1 only. *)
Theorem constructed_registry n :
  match IdNameMap_new (ID:=ID) n with
  | Returned m =>
      0 < n ∧
      (∀ name, GetId name m = Invalid) ∧
      (∀ id, GetName id m
               = Some (if bool_decide (0 < id_index id < n) then "" else "invalid")) ∧
      (∀ last, AssertAllInserted last m = Returned () ↔ id_index last = 1)
  | AssertFailed => n = 0
  end.
Proof.
  destruct (IdNameMap_new n) as [m|] eqn:Hnew.
  - apply IdNameMap_new_Returned in Hnew as [Hn ->]. split_and!; [done | | |].
    + intros name. unfold GetId. simpl.
      destruct (decide (name = "invalid")) as [->|Hne].
      * by rewrite lookup_singleton_eq.
      * by rewrite lookup_singleton_ne.
    + intros id. unfold GetName. simpl.
      rewrite length_insert, length_replicate, id_Invalid_zero.
      destruct (Nat.ltb_spec (id_index id) n) as [Hlt|Hge].
      * destruct (decide (id_index id = 0)) as [->|Hpos].
        -- rewrite list_lookup_insert_eq by (rewrite length_replicate; lia).
           by rewrite bool_decide_eq_false_2 by lia.
        -- rewrite list_lookup_insert_ne by done.
           rewrite bool_decide_eq_true_2 by lia.
           by apply lookup_replicate.
      * rewrite list_lookup_insert_eq by (rewrite length_replicate; lia).
        by rewrite bool_decide_eq_false_2 by lia.
    + intros last. rewrite AssertAllInserted_Returned. unfold named_slots.
      cbn [name_map reverse_map]. destruct n as [|n]; [lia|].
      change (<[0:="invalid"]> (replicate (S n) ""))
        with ("invalid" :: replicate n "").
      rewrite filter_cons_True, filter_named_replicate by done.
      rewrite map_size_singleton. simpl. lia.
  - apply AddPair_AssertFailed in Hnew as [Hm|[? Hm]]; simpl in Hm.
    + rewrite length_replicate, id_Invalid_zero in Hm. lia.
    + by rewrite lookup_empty in Hm.
Qed.
End IdNameMap_stability.

Section IdNameMap_allocation.
Context {ID : Type} `{IdType ID, !IdUnbounded ID}.

Implicit Types (m : IdNameMap ID) (id : ID) (name : string).

(** X8.  GetOrCreateId never hands out an id that is in use.  In every
    reachable state the id created for a name that is not registered is
    not the invalid id, is the id of no registered name, and its slot lies
    just past the end of the name sequence. *)
Theorem created_id_is_unused m name :
  reachable m → reverse_map m !! name = None →
  (GetOrCreateId name m).1 ≠ Invalid ∧
  (∀ other id, reverse_map m !! other = Some id → id ≠ (GetOrCreateId name m).1) ∧
  id_index (GetOrCreateId name m).1 = length (name_map m).
Proof.
  intros Hreach Hnew. rewrite (GetOrCreateId_new _ _ Hnew). simpl.
  pose proof (reachable_slot_entry m Hreach) as [_ Hin].
  destruct (reachable_invalid m Hreach) as [Hinvalid Hlen].
  assert (Hused : ∀ other id, reverse_map m !! other = Some id →
                    id ≠ id_of_index (length (name_map m))).
  { intros other id Hl%Hin ->. rewrite id_index_of_index in Hl. lia. }
  split_and!; [| done | apply id_index_of_index].
  intros Heq. by apply (Hused _ _ Hinvalid).
Qed.

End IdNameMap_allocation.

Section IdNameMap_lookups.
Context {ID : Type} `{IdType ID}.

Implicit Types (m : IdNameMap ID) (id : ID) (name : string).

(** X9.  Ids created by GetOrCreateId lie above the reserved range.  In a
    registry constructed with n reserved slots, after any run of calls,
    the id created for a new name is the cast of the size of the name
    sequence, and that size is at least n; when the size fits the
    identifier type, so that the cast does not wrap, the index of the
    created id is at least n: the slots reserved at construction are only
    ever named by AddPair. *)
Theorem created_id_above_reserved n m0 m name :
  IdNameMap_new n = Returned m0 → evolves m0 m →
  reverse_map m !! name = None →
  (GetOrCreateId name m).1 = id_of_index (length (name_map m)) ∧
  n ≤ length (name_map m) ∧
  (next_id_fits m → n ≤ id_index (GetOrCreateId name m).1).
Proof.
  intros [_ ->]%IdNameMap_new_Returned [Hlen _]%evolves_mono Hnew.
  rewrite (GetOrCreateId_new _ _ Hnew). simpl in *.
  rewrite length_insert, length_replicate in Hlen.
  split_and!; [done | done |].
  unfold next_id_fits. by intros ->.
Qed.

(** X10.  The lookups stay inside the name sequence.  In every reachable
    state, also after an AddPair that renamed a slot, and for every
    identifier type, GetName returns a name for every id.  For an
    identifier type whose cast from size_t does not wrap, the id that
    GetId returns for any name, the invalid id included, is the index of
    an existing slot. *)
Theorem lookups_in_bounds m :
  reachable m →
  (∀ id, is_Some (GetName id m)) ∧
  (IdUnbounded ID → ∀ name, id_index (GetId name m) < length (name_map m)).
Proof.
  intros Hreach.
  destruct (reachable_invalid m Hreach) as [_ Hlen].
  split.
  - intros id. unfold GetName. rewrite id_Invalid_zero.
    destruct (Nat.ltb_spec (id_index id) (length (name_map m)));
      by apply lookup_lt_is_Some.
  - intros Hunbounded name.
    pose proof (reachable_slot_entry m Hreach) as [_ Hin].
    unfold GetId.
    destruct (reverse_map m !! name) as [id|] eqn:Hl; [by eapply Hin|].
    by rewrite id_Invalid_zero.
Qed.

(** X11.  GetId undoes GetName in every reachable state, for every
    identifier type.  For an id inside the name sequence whose slot holds
    a non-empty name, GetId of that name is the id, also in the states
    where the other round trip, GetName of GetId, is lost because a slot
    was renamed. *)
Theorem GetId_of_GetName m id name :
  reachable m → id_index id < length (name_map m) →
  GetName id m = Some name → name ≠ "" →
  GetId name m = id.
Proof.
  intros Hreach Hlt Hname Hne.
  pose proof (reachable_slots_have_entries m Hreach) as Hse.
  unfold GetName in Hname.
  destruct (Nat.ltb_spec (id_index id) (length (name_map m))); [|lia].
  unfold GetId. by rewrite (Hse _ _ Hname Hne), id_of_index_index.
Qed.

(** X12.  GetOrCreateId on a new name disturbs no lookup.  Afterwards
    GetId of the name is the new id, GetId of every other name is as
    before, and GetName of every id inside the old name sequence is as
    before, for every identifier type; when the size of the name sequence
    fits the identifier type, so that the cast does not wrap, GetName of
    the new id is the name. *)
Theorem GetOrCreateId_frame m name :
  reverse_map m !! name = None →
  let created := GetOrCreateId name m in
  GetId name created.2 = created.1 ∧
  (next_id_fits m → GetName created.1 created.2 = Some name) ∧
  (∀ other, other ≠ name → GetId other created.2 = GetId other m) ∧
  (∀ id, id_index id < length (name_map m) →
     GetName id created.2 = GetName id m).
Proof.
  intros Hnew created. subst created. rewrite (GetOrCreateId_new _ _ Hnew).
  unfold GetId, GetName, next_id_fits. simpl. rewrite length_app. simpl. split_and!.
  - by rewrite lookup_insert_eq.
  - intros ->.
    destruct (Nat.ltb_spec (length (name_map m)) (length (name_map m) + 1)); [|lia].
    by rewrite lookup_app_r, Nat.sub_diag.
  - intros other Hother. by rewrite lookup_insert_ne.
  - intros id Hlt.
    destruct (Nat.ltb_spec (id_index id) (length (name_map m) + 1)); [|lia].
    destruct (Nat.ltb_spec (id_index id) (length (name_map m))); [|lia].
    by rewrite lookup_app_l.
Qed.
End IdNameMap_lookups.

Section IdNameMap_sequence.
Context {ID : Type} `{IdType ID}.

Implicit Types (m : IdNameMap ID) (id : ID) (name : string).


End IdNameMap_sequence.

(** ** The extras at the example registry *)

Lemma fresh_registry_new : IdNameMap_new 3 = Returned fresh_registry.
Proof. reflexivity. Qed.

Lemma example_run : evolves fresh_registry example_registry.
Proof.
  pose (m1 := mkIdNameMap ["invalid"; "margin"; ""]
                (<["margin" := PropertyId_of 1]> {[ "invalid" := PropertyId_of 0 ]})
              : IdNameMap PropertyId).
  apply (rtc_l _ _ m1).
  - by apply (step_AddPair fresh_registry (PropertyId_of 1) "margin").
  - apply rtc_once. exact (step_GetOrCreateId m1 "color").
Qed.

Lemma example_registry_is_reachable : reachable example_registry.
Proof.
  apply reachable_evolves. exists 3, fresh_registry.
  split; [apply fresh_registry_new | apply example_run].
Qed.

Lemma example_registry_passes :
  AssertAllInserted (PropertyId_of 3) example_registry = Returned ().
Proof. by vm_compute. Qed.

Lemma AssertAllInserted_establishes_invariant_example :
  registry_inv example_registry.
Proof.
  exact (AssertAllInserted_establishes_invariant example_registry (PropertyId_of 3)
           example_registry_is_reachable example_registry_passes).
Defined.

Lemma AssertAllInserted_passes_iff_example :
  AssertAllInserted (PropertyId_of 3) example_registry = Returned () ↔
  id_index (PropertyId_of 3) = size (reverse_map example_registry).
Proof.
  apply AssertAllInserted_passes_iff.
  pose (m1 := mkIdNameMap ["invalid"; "margin"; ""]
                (<["margin" := PropertyId_of 1]> {[ "invalid" := PropertyId_of 0 ]})
              : IdNameMap PropertyId).
  assert (H0 : registry_inv fresh_registry) by by apply (registry_inv_new 3).
  assert (H1 : registry_inv m1).
  { by apply (registry_inv_AddPair (PropertyId_of 1) "margin" fresh_registry m1). }
  exact (registry_inv_GetOrCreateId "color" m1 H1 ltac:(done)).
Defined.

Lemma ids_are_stable_example :
  GetId "invalid" example_registry = PropertyId_of 0 ∧
  GetOrCreateId "invalid" example_registry = (PropertyId_of 0, example_registry) ∧
  length (name_map fresh_registry) ≤ length (name_map example_registry).
Proof.
  apply (ids_are_stable fresh_registry example_registry "invalid" (PropertyId_of 0)).
  - apply example_run.
  - reflexivity.
Defined.

Lemma AddPair_rejects_registered_name_example :
  AddPair (PropertyId_of 2) "invalid" example_registry = AssertFailed.
Proof.
  apply (AddPair_rejects_registered_name fresh_registry example_registry).
  - apply example_run.
  - by exists (PropertyId_of 0).
Defined.

Lemma invalid_name_is_reserved_example :
  GetId "invalid" example_registry = Invalid ∧
  GetOrCreateId "invalid" example_registry = (Invalid, example_registry) ∧
  ∀ id, AddPair id "invalid" example_registry = AssertFailed.
Proof.
  apply invalid_name_is_reserved. apply example_registry_is_reachable.
Defined.

Lemma AddPair_commutes_example :
  (m1 ← AddPair (PropertyId_of 1) "margin" fresh_registry;
   AddPair (PropertyId_of 2) "padding" m1)
  = (m2 ← AddPair (PropertyId_of 2) "padding" fresh_registry;
     AddPair (PropertyId_of 1) "margin" m2).
Proof. apply AddPair_commutes. simpl. lia. Defined.

Lemma created_id_is_unused_example :
  (GetOrCreateId "padding" example_registry).1 ≠ Invalid ∧
  (∀ other id, reverse_map example_registry !! other = Some id →
     id ≠ (GetOrCreateId "padding" example_registry).1) ∧
  id_index (GetOrCreateId "padding" example_registry).1
    = length (name_map example_registry).
Proof.
  apply created_id_is_unused.
  - apply example_registry_is_reachable.
  - by vm_compute.
Defined.

Lemma created_id_above_reserved_example :
  (GetOrCreateId "padding" example_registry).1 = PropertyId_of 4 ∧
  3 ≤ length (name_map example_registry) ∧
  3 ≤ id_index (GetOrCreateId "padding" example_registry).1.
Proof.
  destruct (created_id_above_reserved 3 fresh_registry example_registry "padding")
    as (Hid & Hlen & Hindex).
  - apply fresh_registry_new.
  - apply example_run.
  - by vm_compute.
  - split_and!; [exact Hid | exact Hlen | apply Hindex; reflexivity].
Defined.

Lemma lookups_in_bounds_example :
  (∀ id, is_Some (GetName id example_registry)) ∧
  (∀ name, id_index (GetId name example_registry)
           < length (name_map example_registry)).
Proof.
  destruct (lookups_in_bounds example_registry example_registry_is_reachable)
    as [Hname Hid].
  split; [exact Hname | exact (Hid PropertyId_unbounded)].
Defined.

Lemma GetId_of_GetName_example :
  GetId "color" example_registry = PropertyId_of 3.
Proof.
  apply GetId_of_GetName.
  - apply example_registry_is_reachable.
  - simpl. lia.
  - reflexivity.
  - done.
Defined.

Lemma GetOrCreateId_frame_example :
  GetId "padding" (GetOrCreateId "padding" example_registry).2
    = (GetOrCreateId "padding" example_registry).1 ∧
  GetName (GetOrCreateId "padding" example_registry).1
          (GetOrCreateId "padding" example_registry).2 = Some "padding" ∧
  (∀ other, other ≠ "padding" →
     GetId other (GetOrCreateId "padding" example_registry).2
     = GetId other example_registry) ∧
  (∀ id, id_index id < length (name_map example_registry) →
     GetName id (GetOrCreateId "padding" example_registry).2
     = GetName id example_registry).
Proof.
  destruct (GetOrCreateId_frame example_registry "padding")
    as (Hid & Hname & Hothers & Hnames); [by vm_compute|].
  split_and!; [exact Hid | apply Hname; reflexivity | exact Hothers | exact Hnames].
Defined.

